(** * Math Ninja: the game screen of [app/game.tsx]

    A shallow embedding of the game logic of the single-screen arcade game:
    the geometry helpers, the wave generator, the per-frame simulation of
    bubbles and sliced halves, and the session controller (slice handler,
    fall handler, deferred wave advance, restart).

    Modelling conventions.
    - In the session and in the per-frame simulation a JavaScript
      [number] holding a coordinate or a velocity is an exact rational
      ([Q]); counters and answers are integers ([Z]).  The slice handler
      sees the geometry helpers only through the outcome of the hit test
      ([hitRect]).
    - Which segments the geometry helpers accept depends on the rounding
      of every operation, so the helpers are also given over IEEE 754
      binary64 numbers (module [Double]), with the operations and
      comparisons of the standard; what is stated about hits and misses
      is stated there.
    - [Math.random()] is a sequence [random : nat -> Q] of the values the
      successive calls return; the session record counts the calls made so
      far ([randomCalls]).  Its contract is [0 <= random n < 1].
    - React state and the [useRef] mirrors are separate fields.  Handlers
      read what the source reads (mirrors) and write what it writes (state);
      [commitEffects] runs the four mirror-updating effects of a render.
    - [setTimeout] callbacks are a list of pending delays; every pending
      callback is the same closure ([setWaveId(id => id + 1); buildWave()]).
    - Strings are sequences of 8-bit code units; every label of the game is
      ASCII. *)

From Stdlib Require Import QArith Qround Lqa ZArith Lia Bool List String Ascii.
From Stdlib Require Import DecimalString Floats.
From stdpp Require Import base list.
Import ListNotations.
Local Open Scope Q_scope.

(** ** Constants *)

Definition FRUIT_W : Q := 140.
Definition FRUIT_H : Q := 84.
Definition GRAVITY : Q := 0.2.
Definition FRUIT_COUNT : nat := 3.

Definition Qlt_bool (a b : Q) : bool := negb (Qle_bool b a).

(** ** Geometry *)

Definition segIntersect (x1 y1 x2 y2 x3 y3 x4 y4 : Q) : bool :=
  let d := (x1 - x2) * (y3 - y4) - (y1 - y2) * (x3 - x4) in
  if Qeq_bool d 0 then false else
  let t := ((x1 - x3) * (y3 - y4) - (y1 - y3) * (x3 - x4)) / d in
  let u := - ((x1 - x2) * (y1 - y3) - (y1 - y2) * (x1 - x3)) / d in
  Qle_bool 0 t && Qle_bool t 1 && Qle_bool 0 u && Qle_bool u 1.

Definition segIntersectsRect (x1 y1 x2 y2 rx ry rw rh : Q) : bool :=
  let xA := rx in
  let xB := rx + rw in
  let yA := ry in
  let yB := ry + rh in
  segIntersect x1 y1 x2 y2 xA yA xB yA ||
  segIntersect x1 y1 x2 y2 xB yA xB yB ||
  segIntersect x1 y1 x2 y2 xB yB xA yB ||
  segIntersect x1 y1 x2 y2 xA yB xA yA.

(** ** Geometry in double precision

    The same two helpers on binary64 numbers: [-], [+], [*] and [/] round
    to nearest, [===], [>=] and [<=] compare as the standard says (a NaN
    compares false, the two zeros are equal). *)

Module Double.

Definition segIntersect (x1 y1 x2 y2 x3 y3 x4 y4 : float) : bool :=
  let d := ((x1 - x2) * (y3 - y4) - (y1 - y2) * (x3 - x4))%float in
  if (d =? 0)%float then false else
  let t := (((x1 - x3) * (y3 - y4) - (y1 - y3) * (x3 - x4)) / d)%float in
  let u := ((- ((x1 - x2) * (y1 - y3) - (y1 - y2) * (x1 - x3))) / d)%float in
  (0 <=? t)%float && (t <=? 1)%float && (0 <=? u)%float && (u <=? 1)%float.

Definition segIntersectsRect (x1 y1 x2 y2 rx ry rw rh : float) : bool :=
  let xA := rx in
  let xB := (rx + rw)%float in
  let yA := ry in
  let yB := (ry + rh)%float in
  segIntersect x1 y1 x2 y2 xA yA xB yA ||
  segIntersect x1 y1 x2 y2 xB yA xB yB ||
  segIntersect x1 y1 x2 y2 xB yB xA yB ||
  segIntersect x1 y1 x2 y2 xA yB xA yA.

End Double.

(** ** Strings: [split], [trim] and number formatting *)

(** [s.split(sep)] for a one-character separator. *)
Fixpoint split (sep : ascii) (s : string) : list string :=
  match s with
  | EmptyString => [EmptyString]
  | String c rest =>
      if (c =? sep)%char then EmptyString :: split sep rest
      else match split sep rest with
           | p :: ps => String c p :: ps
           | [] => [String c EmptyString]
           end
  end.

(** White space and line terminators that [trim] strips, among the code
    units below 256: TAB, LF, VT, FF, CR, SPACE and NBSP. *)
Definition isWhiteSpace (c : ascii) : bool :=
  let n := nat_of_ascii c in
  ((9 <=? n) && (n <=? 13) || (n =? 32) || (n =? 160))%nat.

Fixpoint trimStart (s : string) : string :=
  match s with
  | EmptyString => EmptyString
  | String c rest => if isWhiteSpace c then trimStart rest else s
  end.

Fixpoint trimEnd (s : string) : string :=
  match s with
  | EmptyString => EmptyString
  | String c rest =>
      match trimEnd rest with
      | EmptyString => if isWhiteSpace c then EmptyString else String c EmptyString
      | kept => String c kept
      end
  end.

Definition trim (s : string) : string := trimEnd (trimStart s).

(** [x ?? ""] on a possibly missing array element. *)
Definition orEmpty (x : option string) : string :=
  match x with Some s => s | None => EmptyString end.

(** The text a template literal inserts for an integer. *)
Definition numToString (n : Z) : string := NilZero.string_of_int (Z.to_int n).

(** ** Arrays *)

(** [copy[i] = v] on an array of booleans: in range it overwrites, past the
    end JavaScript extends the array; the holes it leaves read as
    [undefined], which every reader of these arrays treats as [false]. *)
Definition arraySet (i : nat) (v : bool) (l : list bool) : list bool :=
  if (i <? length l)%nat then <[i := v]> l
  else l ++ replicate (i - length l) false ++ [v].

(** [[arr[i], arr[j]] = [arr[j], arr[i]]].  Both indices are inside the
    array wherever the shuffle calls it (see [shuffle_index_in_range]). *)
Definition swap (i j : nat) (arr : list Z) : list Z :=
  match arr !! i, arr !! j with
  | Some vi, Some vj => <[j := vi]> (<[i := vj]> arr)
  | _, _ => arr
  end.

(** [arr.indexOf(v)]: the first position of [v], or -1. *)
Fixpoint indexOf (v : Z) (arr : list Z) : Z :=
  match arr with
  | [] => (-1)%Z
  | x :: rest =>
      if (x =? v)%Z then 0%Z
      else let r := indexOf v rest in
           if (r <? 0)%Z then (-1)%Z else (r + 1)%Z
  end.

(** [pool.add(v)] on a JavaScript [Set], which iterates in insertion order. *)
Definition setAdd (v : Z) (pool : list Z) : list Z :=
  if decide (v ∈ pool) then pool else pool ++ [v].

(** ** Exceptions *)

Inductive Outcome (A : Type) : Type :=
| Returned (a : A)
| Thrown.
Arguments Returned {A} a.
Arguments Thrown {A}.

#[global] Instance Outcome_bind : MBind Outcome :=
  fun A B f m => match m with Returned a => f a | Thrown => Thrown end.
#[global] Instance Outcome_ret : MRet Outcome := fun A a => Returned a.

(** ** Data *)

Record Rect := mkRect { rect_x : Q; rect_y : Q; rect_w : Q; rect_h : Q }.

(** The imperative handle a bubble exposes to the screen. *)
Record FruitHandle := mkHandle { rect : unit -> Outcome Rect }.

Record HalfItem := mkHalfItem {
  half_id : Z;
  half_left : bool;
  half_x : Q;
  half_y : Q;
  leftText : string;
  rightText : string
}.

(** The label the screen passes to the [SlicedHalf] it renders for an item. *)
Definition halfLabel (h : HalfItem) : string :=
  if half_left h then leftText h else rightText h.

Record Game := mkGame {
  score : Z;
  lives : Z;
  gameOver : bool;
  waveId : Z;
  labels : list string;
  answers : list Z;
  correctIdx : Z;
  hidden : list bool;
  halves : list HalfItem;
  fallenCountRef : Z;
  hiddenRef : list bool;
  labelsRef : list string;
  correctIdxRef : Z;
  gameOverRef : bool;
  timeouts : list Z;
  randomCalls : nat
}.

Definition setScore (v : Z) (g : Game) : Game :=
  mkGame v (lives g) (gameOver g) (waveId g) (labels g) (answers g)
    (correctIdx g) (hidden g) (halves g) (fallenCountRef g) (hiddenRef g)
    (labelsRef g) (correctIdxRef g) (gameOverRef g) (timeouts g) (randomCalls g).

Definition setLives (v : Z) (g : Game) : Game :=
  mkGame (score g) v (gameOver g) (waveId g) (labels g) (answers g)
    (correctIdx g) (hidden g) (halves g) (fallenCountRef g) (hiddenRef g)
    (labelsRef g) (correctIdxRef g) (gameOverRef g) (timeouts g) (randomCalls g).

Definition setGameOver (v : bool) (g : Game) : Game :=
  mkGame (score g) (lives g) v (waveId g) (labels g) (answers g)
    (correctIdx g) (hidden g) (halves g) (fallenCountRef g) (hiddenRef g)
    (labelsRef g) (correctIdxRef g) (gameOverRef g) (timeouts g) (randomCalls g).

Definition setWaveId (v : Z) (g : Game) : Game :=
  mkGame (score g) (lives g) (gameOver g) v (labels g) (answers g)
    (correctIdx g) (hidden g) (halves g) (fallenCountRef g) (hiddenRef g)
    (labelsRef g) (correctIdxRef g) (gameOverRef g) (timeouts g) (randomCalls g).

Definition setHidden (v : list bool) (g : Game) : Game :=
  mkGame (score g) (lives g) (gameOver g) (waveId g) (labels g) (answers g)
    (correctIdx g) v (halves g) (fallenCountRef g) (hiddenRef g)
    (labelsRef g) (correctIdxRef g) (gameOverRef g) (timeouts g) (randomCalls g).

Definition setHalves (v : list HalfItem) (g : Game) : Game :=
  mkGame (score g) (lives g) (gameOver g) (waveId g) (labels g) (answers g)
    (correctIdx g) (hidden g) v (fallenCountRef g) (hiddenRef g)
    (labelsRef g) (correctIdxRef g) (gameOverRef g) (timeouts g) (randomCalls g).

Definition setFallenCount (v : Z) (g : Game) : Game :=
  mkGame (score g) (lives g) (gameOver g) (waveId g) (labels g) (answers g)
    (correctIdx g) (hidden g) (halves g) v (hiddenRef g)
    (labelsRef g) (correctIdxRef g) (gameOverRef g) (timeouts g) (randomCalls g).

(** [setTimeout(callback, delay)]: one more pending wave advance. *)
Definition setTimeout (delay : Z) (g : Game) : Game :=
  mkGame (score g) (lives g) (gameOver g) (waveId g) (labels g) (answers g)
    (correctIdx g) (hidden g) (halves g) (fallenCountRef g) (hiddenRef g)
    (labelsRef g) (correctIdxRef g) (gameOverRef g) (timeouts g ++ [delay])
    (randomCalls g).

Definition setTimeouts (v : list Z) (g : Game) : Game :=
  mkGame (score g) (lives g) (gameOver g) (waveId g) (labels g) (answers g)
    (correctIdx g) (hidden g) (halves g) (fallenCountRef g) (hiddenRef g)
    (labelsRef g) (correctIdxRef g) (gameOverRef g) v (randomCalls g).

(** The new wave written by [buildWave]: answers, labels, correct index,
    hidden flags, halves and the fallen counter, after [calls] draws. *)
Definition setWave (arr : list Z) (lbls : list string) (idx : Z)
    (calls : nat) (g : Game) : Game :=
  mkGame (score g) (lives g) (gameOver g) (waveId g) lbls arr idx
    (replicate FRUIT_COUNT false) [] 0%Z (hiddenRef g) (labelsRef g)
    (correctIdxRef g) (gameOverRef g) (timeouts g) calls.

Definition tickRandom (g : Game) : Game :=
  mkGame (score g) (lives g) (gameOver g) (waveId g) (labels g) (answers g)
    (correctIdx g) (hidden g) (halves g) (fallenCountRef g) (hiddenRef g)
    (labelsRef g) (correctIdxRef g) (gameOverRef g) (timeouts g)
    (S (randomCalls g)).

(** The four [useEffect]s that copy state into the mirrors after a render. *)
Definition commitEffects (g : Game) : Game :=
  mkGame (score g) (lives g) (gameOver g) (waveId g) (labels g) (answers g)
    (correctIdx g) (hidden g) (halves g) (fallenCountRef g) (hidden g)
    (labels g) (correctIdx g) (gameOver g) (timeouts g) (randomCalls g).

(** The state of the first render, before the mount effect builds a wave. *)
Definition initialGame : Game :=
  mkGame 0 3 false 0 (replicate FRUIT_COUNT EmptyString)
    (replicate FRUIT_COUNT 0%Z) 0 (replicate FRUIT_COUNT false) [] 0
    (replicate FRUIT_COUNT false) (replicate FRUIT_COUNT EmptyString) 0 false
    [] 0.

(** ** Falling bodies *)

Record Bubble := mkBubble {
  bubble_x : Q;
  bubble_y : Q;
  bubble_vy : Q;
  fell : bool
}.

Record Half := mkHalf {
  piece_x : Q;
  piece_y : Q;
  piece_vx : Q;
  piece_vy : Q;
  piece_rot : Q
}.

Inductive Flow := Continue | Break.

Section GameScreen.
(** The values returned by the successive calls of [Math.random()], and
    the window size read from [Dimensions]. *)
Variable random : nat -> Q.
Variables width height : Q.

(** [Math.floor(Math.random() * n)] at call number [k]. *)
Definition randomInt (n : Z) (k : nat) : Z :=
  Qfloor (random k * inject_Z n).

(** *** FruitBubble *)

(** The effect on [seed, x0]: back to the launch position. *)
Definition launchBubble (x0 : Q) (k : nat) : Bubble :=
  mkBubble x0 (height - 60) (-12.5 - random k * 3) false.

(** One frame callback; the boolean tells whether [onFall] was called. *)
Definition bubbleFrame (hiddenProp : bool) (b : Bubble) : Bubble * bool :=
  if hiddenProp then (b, false) else
  let y := bubble_y b + bubble_vy b in
  let vy := bubble_vy b + GRAVITY in
  let vy := if Qlt_bool y (height * 0.10) && Qlt_bool vy 0 then 0 else vy in
  if negb (fell b) && Qlt_bool (height + 120) y
  then (mkBubble (bubble_x b) y vy true, true)
  else (mkBubble (bubble_x b) y vy (fell b), false).

(** Successive frames, one [hidden] prop per frame; the events emitted. *)
Fixpoint bubbleFrames (props : list bool) (b : Bubble) : Bubble * list bool :=
  match props with
  | [] => (b, [])
  | p :: rest =>
      let '(b1, ev) := bubbleFrame p b in
      let '(b2, evs) := bubbleFrames rest b1 in
      (b2, ev :: evs)
  end.

Definition bubbleHandle (b : Bubble) : FruitHandle :=
  mkHandle (fun _ => Returned (mkRect (bubble_x b) (bubble_y b) FRUIT_W FRUIT_H)).

(** Pre-spaced launch slots. *)
Definition slot (i : nat) : Q :=
  (inject_Z (Z.of_nat i) + 0.5) * (width / inject_Z (Z.of_nat FRUIT_COUNT))
  - FRUIT_W / 2.

(** *** SlicedHalf *)

(** The shared values a half starts from; [r1] and [r2] are the two
    random draws of the render that mounts it. *)
Definition mountHalf (item : HalfItem) (r1 r2 : Q) : Half :=
  if half_left item
  then mkHalf (half_x item) (half_y item) (-6 - r1 * 3) (-8 - r2 * 6) (-15)
  else mkHalf (half_x item) (half_y item) (6 + r1 * 3) (-8 - r2 * 6) 15.

(** One frame callback; the boolean tells whether [onDone] was called. *)
Definition halfFrame (h : Half) : Half * bool :=
  let x := piece_x h + piece_vx h in
  let y := piece_y h + piece_vy h in
  let vy := piece_vy h + GRAVITY in
  let rot := piece_rot h + 2 in
  (mkHalf x y (piece_vx h) vy rot, Qlt_bool (height + 200) y).

Fixpoint halfFrames (n : nat) (h : Half) : Half * list bool :=
  match n with
  | O => (h, [])
  | S n' =>
      let '(h1, ev) := halfFrame h in
      let '(h2, evs) := halfFrames n' h1 in
      (h2, ev :: evs)
  end.

(** *** Wave generator *)

(** The value one pass of the [while] body adds to the pool. *)
Definition candidateAt (correct : Z) (k : nat) : Z :=
  let delta := (randomInt 5 k - 2)%Z in
  (correct + delta + (if (delta =? 0)%Z then 1 else 0))%Z.

(** [while (pool.size < FRUIT_COUNT) ...]; [None] when the loop is still
    running after [fuel] passes. *)
Fixpoint fillPool (fuel : nat) (correct : Z) (pool : list Z) (k : nat)
    : option (list Z * nat) :=
  if (length pool <? FRUIT_COUNT)%nat then
    match fuel with
    | O => None
    | S fuel' =>
        fillPool fuel' correct (setAdd (candidateAt correct k) pool) (S k)
    end
  else Some (pool, k).

(** [for (let i = arr.length - 1; i > 0; i--)], entered at index [i]. *)
Fixpoint shuffle (i : nat) (arr : list Z) (k : nat) : list Z * nat :=
  match i with
  | O => (arr, k)
  | S i' =>
      let j := Z.to_nat (randomInt (Z.of_nat i + 1) k) in
      shuffle i' (swap i j arr) (S k)
  end.

Definition waveLabel (a b v : Z) : string :=
  (numToString a ++ " + " ++ numToString b ++ " = " ++ numToString v)%string.

Definition buildWave (fuel : nat) (g : Game) : option Game :=
  let k := randomCalls g in
  let a := randomInt 10 k in
  let b := randomInt 10 (S k) in
  let correct := (a + b)%Z in
  '(pool, k1) ← fillPool fuel correct [correct] (S (S k));
  let '(arr, k2) := shuffle (length pool - 1) pool k1 in
  Some (setWave arr (map (waveLabel a b) arr) (indexOf correct arr) k2 g).

(** *** Session controller *)

Definition handleFruitFall (g : Game) : Game :=
  let g := setFallenCount (fallenCountRef g + 1) g in
  if (Z.of_nat FRUIT_COUNT <=? fallenCountRef g)%Z && negb (gameOverRef g) then
    let next := (lives g - 1)%Z in
    if (next <=? 0)%Z then setLives 0 (setGameOver true g)
    else setLives next (setTimeout 250 g)
  else g.

Definition spawnHalves (now : Z) (cx cy : Q) (fullLabel : string) (g : Game)
    : Game :=
  let parts := split "=" fullLabel in
  let rightText := trim (orEmpty (parts !! 1%nat)) in
  let left := trim (orEmpty (parts !! 0%nat)) in
  let idBase := (now + randomInt 1000 (randomCalls g))%Z in
  tickRandom
    (setHalves
       (halves g ++
        [mkHalfItem idBase true (cx - 20) cy left rightText;
         mkHalfItem (idBase + 1) false (cx + 20) cy left rightText])
       g).

Definition removeHalf (id : Z) (g : Game) : Game :=
  setHalves (filter (fun h => half_id h <> id) (halves g)) g.

(** The updater [jsHandleSlice] passes to [setLives]. *)
Definition loseLife (g : Game) : Game :=
  let next := (lives g - 1)%Z in
  if (next <=? 0)%Z then setLives 0 (setGameOver true g)
  else setLives next g.

(** The [try] block of one pass over slot [i].  [hiddenL], [labelsL] and
    [correctIdxL] are the locals read from the mirrors before the loop. *)
Definition sliceTry (now : Z) (x1 y1 x2 y2 : Q)
    (fruitRefs : list (option FruitHandle))
    (hiddenL : list bool) (labelsL : list string) (correctIdxL : Z)
    (i : nat) (g : Game) : Outcome (Game * Flow) :=
  if default false (hiddenL !! i) then mret (g, Continue) else
  match fruitRefs !! i with
  | Some (Some ref) =>
      r ← rect ref tt;
      let '(mkRect x y w h) := r in
      if segIntersectsRect x1 y1 x2 y2 (x - 12) (y - 12) (w + 24) (h + 24)
      then
        let g := setHidden (arraySet i true (hidden g)) g in
        let g := spawnHalves now (x + w / 2) (y + h / 2)
                   (orEmpty (labelsL !! i)) g in
        let g := if (Z.of_nat i =? correctIdxL)%Z
                 then setScore (score g + 1) g
                 else loseLife g in
        let g := setTimeout 200 g in
        mret (g, Break)
      else mret (g, Continue)
  | _ => mret (g, Continue)
  end.

(** [try { ... } catch {}]: nothing is written before the only call that
    can throw, so a caught exception leaves the state as it was. *)
Definition sliceCatch (now : Z) (x1 y1 x2 y2 : Q)
    (fruitRefs : list (option FruitHandle))
    (hiddenL : list bool) (labelsL : list string) (correctIdxL : Z)
    (i : nat) (g : Game) : Game * Flow :=
  match sliceTry now x1 y1 x2 y2 fruitRefs hiddenL labelsL correctIdxL i g with
  | Returned r => r
  | Thrown => (g, Continue)
  end.

(** [for (let i = ...; i < FRUIT_COUNT; i++)] with [n] passes left. *)
Fixpoint sliceLoop (now : Z) (x1 y1 x2 y2 : Q)
    (fruitRefs : list (option FruitHandle))
    (hiddenL : list bool) (labelsL : list string) (correctIdxL : Z)
    (n i : nat) (g : Game) : Game :=
  match n with
  | O => g
  | S n' =>
      match sliceCatch now x1 y1 x2 y2 fruitRefs hiddenL labelsL correctIdxL i g with
      | (g', Break) => g'
      | (g', Continue) =>
          sliceLoop now x1 y1 x2 y2 fruitRefs hiddenL labelsL correctIdxL
            n' (S i) g'
      end
  end.

Definition jsHandleSlice (now : Z) (x1 y1 x2 y2 : Q)
    (fruitRefs : list (option FruitHandle)) (g : Game) : Game :=
  if gameOverRef g then g else
  sliceLoop now x1 y1 x2 y2 fruitRefs
    (hiddenRef g) (labelsRef g) (correctIdxRef g) FRUIT_COUNT 0 g.

(** The callback every [setTimeout] of the screen carries. *)
Definition nextWave (fuel : nat) (g : Game) : option Game :=
  buildWave fuel (setWaveId (waveId g + 1) g).

(** The pending callback number [n] fires. *)
Definition fireTimeout (n fuel : nat) (g : Game) : option Game :=
  match timeouts g !! n with
  | Some _ => nextWave fuel (setTimeouts (delete n (timeouts g)) g)
  | None => None
  end.

Definition restart (fuel : nat) (g : Game) : option Game :=
  buildWave fuel
    (setWaveId (waveId g + 1) (setGameOver false (setLives 3 (setScore 0 g)))).

(** *** The session as a transition system

    One step is one callback followed by the render it causes.  The
    handles in [fruitRefs], the clock and the swipe segment come from the
    environment; a fall may be reported at any time. *)
Inductive Step : Game -> Game -> Prop :=
| StepSlice now x1 y1 x2 y2 fruitRefs g :
    Step g (commitEffects (jsHandleSlice now x1 y1 x2 y2 fruitRefs g))
| StepFall g :
    Step g (commitEffects (handleFruitFall g))
| StepTimeout n fuel g g' :
    fireTimeout n fuel g = Some g' -> Step g (commitEffects g')
| StepRestart fuel g g' :
    gameOver g = true -> restart fuel g = Some g' ->
    Step g (commitEffects g')
| StepRemoveHalf id g :
    Step g (commitEffects (removeHalf id g)).

Inductive Reachable : Game -> Prop :=
| ReachMount fuel g :
    buildWave fuel initialGame = Some g -> Reachable (commitEffects g)
| ReachStep g g' :
    Reachable g -> Step g g' -> Reachable g'.

End GameScreen.

(** ** Notions used to state the properties of the geometry helpers *)

(** The point of the segment at parameter [t]. *)
Definition lerp (a b t : Q) : Q := a + t * (b - a).

Definition inOpenRect (rx ry rw rh x y : Q) : Prop :=
  rx < x < rx + rw /\ ry < y < ry + rh.



(** Every point of the segment is strictly inside the rectangle. *)
Definition fullyInside (x1 y1 x2 y2 rx ry rw rh : Q) : Prop :=
  forall t, 0 <= t <= 1 ->
    inOpenRect rx ry rw rh (lerp x1 x2 t) (lerp y1 y2 t).

(** *** In double precision *)

(** The determinant and the numerators of the two parameters, as
    [Double.segIntersect] computes them. *)
Definition det (x1 y1 x2 y2 x3 y3 x4 y4 : float) : float :=
  ((x1 - x2) * (y3 - y4) - (y1 - y2) * (x3 - x4))%float.
Definition numT (x1 y1 x2 y2 x3 y3 x4 y4 : float) : float :=
  ((x1 - x3) * (y3 - y4) - (y1 - y3) * (x3 - x4))%float.
Definition numU (x1 y1 x2 y2 x3 y3 x4 y4 : float) : float :=
  (- ((x1 - x2) * (y1 - y3) - (y1 - y2) * (x1 - x3)))%float.

(** [v >= 0 && v <= 1]. *)
Definition inUnit (v : float) : Prop :=
  (0 <=? v)%float = true /\ (v <=? 1)%float = true.

(** The segment from [(x1, y1)] to [(x2, y2)] crosses the one from
    [(x3, y3)] to [(x4, y4)] as far as the computed numbers tell: the
    determinant is not 0 and both quotients are in the unit interval. *)
Definition crosses (x1 y1 x2 y2 x3 y3 x4 y4 : float) : Prop :=
  let d := det x1 y1 x2 y2 x3 y3 x4 y4 in
  (d =? 0)%float = false /\
  inUnit (numT x1 y1 x2 y2 x3 y3 x4 y4 / d)%float /\
  inUnit (numU x1 y1 x2 y2 x3 y3 x4 y4 / d)%float.

(** The rational a finite double stands for. *)
Definition value (f : float) : Q :=
  match Prim2SF f with
  | S754_finite s m e => inject_Z (cond_Zopp s (Z.pos m)) * Qpower 2 e
  | _ => 0
  end.

Definition onValues8 (P : Q -> Q -> Q -> Q -> Q -> Q -> Q -> Q -> Prop)
    (a b c d e f g h : float) : Prop :=
  P (value a) (value b) (value c) (value d) (value e) (value f)
    (value g) (value h).

(** The double is a NaN. *)
Definition isNaN (f : float) : Prop := Prim2SF f = S754_nan.

(** The double is a zero or a NaN. *)
Definition vanishes (f : float) : Prop :=
  match Prim2SF f with
  | S754_zero _ | S754_nan => True
  | _ => False
  end.

(** ** Notions used to state the properties of the session controller *)

(** The mirrors hold what the state holds: the situation after a render. *)
Definition synced (g : Game) : Prop :=
  hiddenRef g = hidden g /\ labelsRef g = labels g /\
  correctIdxRef g = correctIdx g /\ gameOverRef g = gameOver g.

(** What every reachable state satisfies. *)
Definition sessionInv (g : Game) : Prop :=
  (0 <= score g)%Z /\ (0 <= lives g)%Z /\
  (lives g = 0%Z <-> gameOver g = true).

(** The session is in the [Playing] state. *)
Definition playing (g : Game) : Prop := gameOver g = false.

(** The rectangle of slot [i] when the segment hits it: the slot is not
    hidden, its handle is mounted, [rect()] returns and the padded
    rectangle is crossed. *)
Definition hitRect (x1 y1 x2 y2 : Q) (fruitRefs : list (option FruitHandle))
    (hiddenL : list bool) (i : nat) : option Rect :=
  if default false (hiddenL !! i) then None else
  match fruitRefs !! i with
  | Some (Some ref) =>
      match rect ref tt with
      | Returned r =>
          if segIntersectsRect x1 y1 x2 y2 (rect_x r - 12) (rect_y r - 12)
               (rect_w r + 24) (rect_h r + 24)
          then Some r else None
      | Thrown => None
      end
  | _ => None
  end.

(** The segment slices slot [i]: the scan reaches it and it is a hit. *)
Definition slices (x1 y1 x2 y2 : Q) (fruitRefs : list (option FruitHandle))
    (hiddenL : list bool) (i : nat) (r : Rect) : Prop :=
  (i < FRUIT_COUNT)%nat /\
  hitRect x1 y1 x2 y2 fruitRefs hiddenL i = Some r /\
  forall j, (j < i)%nat -> hitRect x1 y1 x2 y2 fruitRefs hiddenL j = None.

(** The state the hit branch of the scan writes for slot [i] with
    rectangle [r] (shown equal to the branch in [sliceTry_hit]). *)
Definition sliceHit (random : nat -> Q) (now : Z) (labelsL : list string)
    (correctIdxL : Z) (i : nat) (r : Rect) (g : Game) : Game :=
  let g := setHidden (arraySet i true (hidden g)) g in
  let g := spawnHalves random now (rect_x r + rect_w r / 2)
             (rect_y r + rect_h r / 2) (orEmpty (labelsL !! i)) g in
  let g := if (Z.of_nat i =? correctIdxL)%Z
           then setScore (score g + 1) g
           else loseLife g in
  setTimeout 200 g.

(** The flag of slot [i], as every reader of [hidden] sees it. *)
Definition isHidden (l : list bool) (i : nat) : bool := default false (l !! i).

(** The string has no ["="]. *)
Fixpoint noEquals (s : string) : bool :=
  match s with
  | EmptyString => true
  | String c rest => negb (c =? "=")%char && noEquals rest
  end.

(** The string has no white space. *)
Fixpoint noSpace (s : string) : bool :=
  match s with
  | EmptyString => true
  | String c rest => negb (isWhiteSpace c) && noSpace rest
  end.

(** How many events a run of frames emitted. *)
Fixpoint countTrue (l : list bool) : nat :=
  match l with
  | [] => 0
  | b :: rest => ((if b then 1 else 0) + countTrue rest)%nat
  end.

(** ** Swipe tracker *)

Definition TRAIL_KEEP : nat := 16.

Record TrailSeg := mkTrailSeg {
  seg_id : Z;
  seg_x1 : Q;
  seg_y1 : Q;
  seg_x2 : Q;
  seg_y2 : Q
}.

(** The [segments] state, the [segId] counter and the last sample point. *)
Record Swipe := mkSwipe {
  segments : list TrailSeg;
  segId : Z;
  lastX : Q;
  lastY : Q
}.

Definition initialSwipe : Swipe := mkSwipe [] 1 0 0.

Definition jsResetTrail (s : Swipe) : Swipe :=
  mkSwipe [] (segId s) (lastX s) (lastY s).

(** [next.slice(-TRAIL_KEEP)] keeps the last [TRAIL_KEEP] segments. *)
Definition jsAddTrail (x1 y1 x2 y2 : Q) (s : Swipe) : Swipe :=
  let next := segments s ++ [mkTrailSeg (segId s) x1 y1 x2 y2] in
  mkSwipe
    (if (TRAIL_KEEP <? length next)%nat
     then drop (length next - TRAIL_KEEP) next else next)
    (segId s + 1) (lastX s) (lastY s).

(** [onStart]: remember the sample and clear the trail. *)
Definition onStart (ex ey : Q) (s : Swipe) : Swipe :=
  jsResetTrail (mkSwipe (segments s) (segId s) ex ey).

(** What [onUpdate] does to the tracker: the segment from the last sample
    to the new one joins the trail, and the new sample becomes the last. *)
Definition trackUpdate (ex ey : Q) (s : Swipe) : Swipe :=
  let s1 := jsAddTrail (lastX s) (lastY s) ex ey s in
  mkSwipe (segments s1) (segId s1) ex ey.

(** [onUpdate]: the same segment goes to the trail and to the slice scan. *)
Definition onUpdate (random : nat -> Q) (now : Z)
    (fruitRefs : list (option FruitHandle)) (ex ey : Q)
    (sg : Swipe * Game) : Swipe * Game :=
  let '(s, g) := sg in
  (trackUpdate ex ey s,
   jsHandleSlice random now (lastX s) (lastY s) ex ey fruitRefs g).

Definition onEnd (s : Swipe) : Swipe := jsResetTrail s.

(** The samples of one gesture after its start, fed to the tracker. *)
Definition trackUpdates (samples : list (Q * Q)) (s : Swipe) : Swipe :=
  fold_left (fun s p => trackUpdate (fst p) (snd p) s) samples s.

(** The opacity the screen gives the trail segment at position [idx] of
    [len]: [0.12 + 0.58 * (idx / Math.max(1, len - 1))]. *)
Definition trailOpacity (idx len : nat) : Q :=
  0.12 + 0.58 * (inject_Z (Z.of_nat idx)
                 / inject_Z (Z.max 1 (Z.of_nat len - 1))).

(** Every two neighbours of the list are related by [R]. *)
Fixpoint adjacent {A : Type} (R : A -> A -> Prop) (l : list A) : Prop :=
  match l with
  | a :: ((b :: _) as rest) => R a b /\ adjacent R rest
  | _ => True
  end.

(** Each segment of the trail starts where the one before it ended. *)
Definition contiguous (l : list TrailSeg) : Prop :=
  adjacent (fun a b => seg_x1 b = seg_x2 a /\ seg_y1 b = seg_y2 a) l.

(** The ids of the trail grow by one from segment to segment. *)
Definition consecutiveIds (l : list TrailSeg) : Prop :=
  adjacent (fun a b => seg_id b = (seg_id a + 1)%Z) l.

(** The wave a reachable session shows: three flags, three pairwise
    distinct answers labelled after two operands, and [correctIdx] at the
    only answer that is their sum. *)
Definition waveShown (g : Game) : Prop :=
  length (hidden g) = FRUIT_COUNT /\
  length (answers g) = FRUIT_COUNT /\
  length (labels g) = FRUIT_COUNT /\
  NoDup (answers g) /\
  exists (a b : Z) (i : nat),
    labels g = map (waveLabel a b) (answers g) /\
    correctIdx g = Z.of_nat i /\ (i < FRUIT_COUNT)%nat /\
    answers g !! i = Some (a + b)%Z.

(** The counters of a reachable session stay in their ranges, and only
    the two delays of the screen are ever pending. *)
Definition countersInRange (g : Game) : Prop :=
  (lives g <= 3)%Z /\ (0 <= fallenCountRef g)%Z /\ (0 <= waveId g)%Z /\
  Forall (fun d => d = 200%Z \/ d = 250%Z) (timeouts g).

(** ** Sample inputs *)

(** Draws that make the wave 3 + 4 with answers 5, 7, 9, and keep giving
    waves: the six values repeat. *)
Definition sampleRandom (n : nat) : Q :=
  match (n mod 6)%nat with
  | 0%nat => 0.3
  | 1%nat => 0.4
  | 2%nat => 0.1
  | 3%nat => 0.9
  | 4%nat => 0.9
  | _ => 0.2
  end.

Definition sampleWave : Game := Eval vm_compute in
  default initialGame (buildWave sampleRandom 2 initialGame).

Definition sampleGame : Game := Eval vm_compute in commitEffects sampleWave.

(** Three bubbles on a 420-wide window, all at height 300. *)
Definition sampleRefs : list (option FruitHandle) :=
  map (fun i => Some (bubbleHandle (mkBubble (slot 420 i) 300 (-5) false)))
      [0; 1; 2]%nat.

(** The same session on its last life. *)
Definition lastLifeGame : Game := setLives 1 sampleGame.

(** The session after a wrong slice on the last life, rendered: the game
    is over and the advance that slice scheduled is pending. *)
Definition gameOverGame : Game := Eval vm_compute in
  commitEffects
    (jsHandleSlice sampleRandom 1000 50 250 50 340 sampleRefs lastLifeGame).

(** A handle whose [rect()] throws. *)
Definition brokenHandle : FruitHandle := mkHandle (fun _ => Thrown).

(** The sample bubbles with the first handle broken. *)
Definition brokenRefs : list (option FruitHandle) :=
  <[0%nat := Some brokenHandle]> sampleRefs.

(** * Properties *)

(** ** Geometry in double precision *)

(** [x - x] is a zero, or a NaN when [x] is an infinity or a NaN. *)
Lemma sub_self_vanishes (x : float) : vanishes (x - x)%float.
Proof.
  unfold vanishes. rewrite sub_spec.
  destruct (Prim2SF x) as [s|s| |s m e]; cbn.
  - now destruct s.
  - now destruct s.
  - exact I.
  - unfold SF64sub, SFsub. cbn zeta. rewrite Z.sub_diag. exact I.
Qed.

Lemma mul_vanishes_l (a b : float) : vanishes a -> vanishes (a * b)%float.
Proof.
  unfold vanishes. rewrite mul_spec.
  destruct (Prim2SF a), (Prim2SF b); cbn; tauto.
Qed.

Lemma mul_vanishes_r (a b : float) : vanishes b -> vanishes (a * b)%float.
Proof.
  unfold vanishes. rewrite mul_spec.
  destruct (Prim2SF a), (Prim2SF b); cbn; tauto.
Qed.

Lemma sub_vanishes (a b : float) :
  vanishes a -> vanishes b -> vanishes (a - b)%float.
Proof.
  unfold vanishes. rewrite sub_spec.
  destruct (Prim2SF a) as [[|]| | |], (Prim2SF b) as [[|]| | |]; cbn; tauto.
Qed.

(** A determinant that is a zero stops at [d === 0]; one that is a NaN
    makes [t] a NaN, which fails [t >= 0]. *)
Lemma segIntersect_det_vanishes (x1 y1 x2 y2 x3 y3 x4 y4 : float) :
  vanishes (det x1 y1 x2 y2 x3 y3 x4 y4) ->
  Double.segIntersect x1 y1 x2 y2 x3 y3 x4 y4 = false.
Proof.
  unfold Double.segIntersect, vanishes.
  fold (det x1 y1 x2 y2 x3 y3 x4 y4).
  fold (numT x1 y1 x2 y2 x3 y3 x4 y4).
  set (d := det x1 y1 x2 y2 x3 y3 x4 y4).
  set (n := numT x1 y1 x2 y2 x3 y3 x4 y4).
  intros Hd. cbv zeta.
  rewrite FloatAxioms.eqb_spec.
  destruct (Prim2SF d) as [s|s| |s m e] eqn:E; try contradiction.
  - reflexivity.
  - change (SFeqb S754_nan (Prim2SF 0)) with false. cbv iota.
    rewrite (leb_spec 0 (n / d)), div_spec, E.
    destruct (Prim2SF n); reflexivity.
Qed.

Lemma segIntersect_crosses (x1 y1 x2 y2 x3 y3 x4 y4 : float) :
  Double.segIntersect x1 y1 x2 y2 x3 y3 x4 y4 = true <->
  crosses x1 y1 x2 y2 x3 y3 x4 y4.
Proof.
  unfold Double.segIntersect, crosses, inUnit.
  fold (det x1 y1 x2 y2 x3 y3 x4 y4).
  fold (numT x1 y1 x2 y2 x3 y3 x4 y4).
  fold (numU x1 y1 x2 y2 x3 y3 x4 y4).
  cbv zeta.
  destruct (det x1 y1 x2 y2 x3 y3 x4 y4 =? 0)%float.
  - split; [discriminate|]. intros [H _]. discriminate.
  - rewrite !andb_true_iff. tauto.
Qed.

(** Two horizontal segments are never reported, nor are two vertical
    ones: both products of the determinant have a factor [c - c]. *)
Lemma segIntersect_both_horizontal (x1 y x2 x3 y3 x4 : float) :
  Double.segIntersect x1 y x2 y x3 y3 x4 y3 = false.
Proof.
  apply segIntersect_det_vanishes. unfold det.
  apply sub_vanishes.
  - apply mul_vanishes_r, sub_self_vanishes.
  - apply mul_vanishes_l, sub_self_vanishes.
Qed.

Lemma segIntersect_both_vertical (x y1 y2 x3 y3 y4 : float) :
  Double.segIntersect x y1 x y2 x3 y3 x3 y4 = false.
Proof.
  apply segIntersect_det_vanishes. unfold det.
  apply sub_vanishes.
  - apply mul_vanishes_l, sub_self_vanishes.
  - apply mul_vanishes_r, sub_self_vanishes.
Qed.

(** A segment of length zero crosses nothing. *)
Lemma segIntersect_point (x y x3 y3 x4 y4 : float) :
  Double.segIntersect x y x y x3 y3 x4 y4 = false.
Proof.
  apply segIntersect_det_vanishes. unfold det.
  apply sub_vanishes; apply mul_vanishes_l, sub_self_vanishes.
Qed.

Ltac values :=
  repeat match goal with
  | |- context [value ?f] =>
      let q := eval vm_compute in (value f) in change (value f) with q
  | H : context [value ?f] |- _ =>
      let q := eval vm_compute in (value f) in change (value f) with q in H
  end.




(** ** Wave generator *)

Lemma setAdd_NoDup v pool : NoDup pool -> NoDup (setAdd v pool).
Proof.
  intros Hnd. unfold setAdd. case_decide as Hin; [exact Hnd|].
  apply NoDup_app. repeat split; [exact Hnd| |apply NoDup_singleton].
  intros x Hx Hx'. apply list_elem_of_singleton in Hx'. subst. contradiction.
Qed.

Lemma setAdd_elem v x pool : x ∈ setAdd v pool <-> x ∈ pool \/ x = v.
Proof.
  unfold setAdd. case_decide as Hin.
  - split; [auto|]. intros [H|H]; [exact H|]. now subst.
  - rewrite elem_of_app, list_elem_of_singleton. tauto.
Qed.

Lemma setAdd_length v pool :
  (length pool <= length (setAdd v pool) <= S (length pool))%nat.
Proof.
  unfold setAdd. case_decide; [lia|]. rewrite length_app. simpl. lia.
Qed.

Lemma swap_perm i j arr : swap i j arr ≡ₚ arr.
Proof.
  unfold swap.
  destruct (arr !! i) as [vi|] eqn:Hi; [|reflexivity].
  destruct (arr !! j) as [vj|] eqn:Hj; [|reflexivity].
  now apply Permutation_insert_swap.
Qed.

Lemma indexOf_spec v arr :
  v ∈ arr ->
  exists i, indexOf v arr = Z.of_nat i /\ arr !! i = Some v /\
            forall j, (j < i)%nat -> arr !! j <> Some v.
Proof.
  induction arr as [|x rest IH]; intros Hin.
  - now apply elem_of_nil in Hin.
  - simpl. destruct (Z.eqb_spec x v) as [->|Hne].
    + exists 0%nat. repeat split. intros j Hj. lia.
    + apply elem_of_cons in Hin as [Heq|Hin]; [congruence|].
      destruct (IH Hin) as (i & Hidx & Hi & Hfirst).
      exists (S i). rewrite Hidx.
      destruct (Z.ltb_spec (Z.of_nat i) 0) as [Hneg|_]; [lia|].
      repeat split; [lia|exact Hi|].
      intros [|j] Hj; simpl; [congruence|]. apply Hfirst. lia.
Qed.

Section WaveGenerator.
Variable random : nat -> Q.

(** Under the contract of [Math.random()], the scaled and floored draw is
    an index below [n]. *)
Lemma randomInt_range n k :
  0 <= random k < 1 -> (0 < n)%Z -> (0 <= randomInt random n k < n)%Z.
Proof.
  intros [Hlo Hhi] Hn. unfold randomInt.
  assert (Hn' : 0 < inject_Z n)
    by (change 0 with (inject_Z 0); now rewrite <- Zlt_Qlt).
  split.
  - change 0%Z with (Qfloor 0). apply Qfloor_resp_le.
    apply Qmult_le_0_compat; lra.
  - rewrite Zlt_Qlt.
    apply Qle_lt_trans with (random k * inject_Z n); [apply Qfloor_le|].
    nra.
Qed.

(** The index the shuffle swaps with lies in [0, i]. *)
Lemma shuffle_index_in_range i k :
  0 <= random k < 1 ->
  (Z.to_nat (randomInt random (Z.of_nat i + 1) k) <= i)%nat.
Proof.
  intros Hr.
  pose proof (randomInt_range (Z.of_nat i + 1) k Hr ltac:(lia)). lia.
Qed.

(** Each candidate is within 2 of the correct answer. *)
Lemma candidateAt_range correct k :
  0 <= random k < 1 ->
  (correct - 2 <= candidateAt random correct k <= correct + 2)%Z.
Proof.
  intros Hr. unfold candidateAt.
  pose proof (randomInt_range 5 k Hr ltac:(lia)).
  destruct (Z.eqb_spec (randomInt random 5 k - 2) 0); lia.
Qed.

Lemma candidateAt_ne correct k : candidateAt random correct k <> correct.
Proof.
  unfold candidateAt.
  destruct (Z.eqb_spec (randomInt random 5 k - 2) 0) as [E|E]; lia.
Qed.

Lemma fillPool_inv fuel correct : forall pool k pool' k',
  fillPool random fuel correct pool k = Some (pool', k') ->
  NoDup pool -> correct ∈ pool -> (length pool <= FRUIT_COUNT)%nat ->
  NoDup pool' /\ correct ∈ pool' /\ length pool' = FRUIT_COUNT /\
  (forall v, v ∈ pool -> v ∈ pool').
Proof.
  induction fuel as [|fuel IH]; intros pool k pool' k' Hrun Hnd Hin Hlen;
    simpl in Hrun;
    destruct (Nat.ltb_spec (length pool) FRUIT_COUNT) as [Hlt|Hge];
    try discriminate.
  - injection Hrun as <- <-. repeat split; auto. lia.
  - apply IH in Hrun.
    + destruct Hrun as (? & ? & ? & Hsub). repeat split; auto.
      intros v Hv. apply Hsub, setAdd_elem. now left.
    + now apply setAdd_NoDup.
    + apply setAdd_elem. now left.
    + pose proof (setAdd_length (candidateAt random correct k) pool). lia.
  - injection Hrun as <- <-. repeat split; auto. lia.
Qed.

Lemma shuffle_perm i : forall arr k, (shuffle random i arr k).1 ≡ₚ arr.
Proof.
  induction i as [|i IH]; intros arr k; simpl; [reflexivity|].
  rewrite IH. apply swap_perm.
Qed.

(** C1: every wave [buildWave] writes has exactly [FRUIT_COUNT] = 3
    answers, pairwise distinct; exactly one position holds the sum of the
    two operands, and [correctIdx] is that position.  The labels are the
    answers rendered after the two operands. *)
Theorem buildWave_wave_valid fuel g g' :
  buildWave random fuel g = Some g' ->
  let a := randomInt random 10 (randomCalls g) in
  let b := randomInt random 10 (S (randomCalls g)) in
  length (answers g') = 3%nat /\
  NoDup (answers g') /\
  (exists i, correctIdx g' = Z.of_nat i /\
             answers g' !! i = Some (a + b)%Z /\
             forall j, answers g' !! j = Some (a + b)%Z -> j = i) /\
  labels g' = map (waveLabel a b) (answers g').
Proof.
  intros Hrun a b. unfold buildWave in Hrun.
  fold a b in Hrun.
  destruct (fillPool random fuel (a + b) [(a + b)%Z] (S (S (randomCalls g))))
    as [[pool k1]|] eqn:Hfill; simpl in Hrun; [|discriminate].
  apply fillPool_inv in Hfill;
    [|apply NoDup_singleton|apply list_elem_of_singleton; reflexivity
     |simpl; unfold FRUIT_COUNT; lia].
  destruct Hfill as (Hnd & Hin & Hlen & _).
  pose proof (shuffle_perm (length pool - 1) pool k1) as Hperm.
  destruct (shuffle random (length pool - 1) pool k1) as [arr k2].
  simpl in Hperm. injection Hrun as <-. simpl.
  assert (Hnd' : NoDup arr) by (now rewrite Hperm).
  assert (Hin' : (a + b)%Z ∈ arr) by (now rewrite Hperm).
  repeat split.
  - rewrite Hperm. exact Hlen.
  - exact Hnd'.
  - destruct (indexOf_spec _ _ Hin') as (i & Hidx & Hi & _).
    exists i. repeat split; [exact Hidx|exact Hi|].
    intros j Hj. exact (NoDup_lookup arr j i _ Hnd' Hj Hi).
Qed.

(** The [while] loop ends as soon as the draws have produced enough
    values that the pool does not hold yet. *)
Lemma fillPool_complete correct : forall n pool k vs fuel,
  NoDup vs ->
  (forall v, v ∈ vs ->
     (v ∉ pool) /\
     exists m, (k <= m < k + n)%nat /\ candidateAt random correct m = v) ->
  (FRUIT_COUNT <= length pool + length vs)%nat ->
  (n <= fuel)%nat ->
  is_Some (fillPool random fuel correct pool k).
Proof.
  induction n as [|n IH]; intros pool k vs fuel Hnd Hvs Hlen Hfuel.
  - destruct vs as [|v vs].
    + simpl in Hlen.
      destruct fuel; simpl;
        destruct (Nat.ltb_spec (length pool) FRUIT_COUNT); try lia; eauto.
    + destruct (Hvs v) as (_ & m & Hm & _); [left|lia].
  - destruct fuel as [|fuel]; [lia|]. simpl.
    destruct (Nat.ltb_spec (length pool) FRUIT_COUNT) as [Hlt|Hge]; [|eauto].
    set (c := candidateAt random correct k).
    assert (Hrest : forall v, v ∈ vs -> v <> c ->
              (v ∉ setAdd c pool) /\
              exists m, (S k <= m < S k + n)%nat /\
                        candidateAt random correct m = v).
    { intros v Hv Hne. destruct (Hvs v Hv) as (Hout & m & Hm & Hcm). split.
      - rewrite setAdd_elem. intros [?|?]; contradiction.
      - exists m. split; [|exact Hcm].
        destruct (decide (m = k)) as [->|]; [|lia].
        subst c. congruence. }
    destruct (decide (c ∈ vs)) as [Hc|Hc].
    + apply elem_of_Permutation in Hc as [vs' Hperm].
      rewrite Hperm in Hnd. apply NoDup_cons in Hnd as [Hc' Hnd'].
      apply (IH _ _ vs'); [exact Hnd'| | |lia].
      * intros v Hv. apply Hrest.
        -- rewrite Hperm. now right.
        -- intros ->. contradiction.
      * pose proof (Permutation_length Hperm) as Hl. simpl in Hl.
        assert (c ∉ pool) by (apply (Hvs c); rewrite Hperm; left).
        unfold setAdd. case_decide; [contradiction|].
        rewrite length_app. simpl. lia.
    + apply (IH _ _ vs); [exact Hnd| | |lia].
      * intros v Hv. apply Hrest; [exact Hv|]. intros ->. contradiction.
      * pose proof (setAdd_length c pool). lia.
Qed.

(** [buildWave] returns a wave once two of the draws after the operands
    give different candidates and the fuel reaches the second of them. *)
Lemma buildWave_produces fuel g m1 m2 :
  let correct := (randomInt random 10 (randomCalls g)
                  + randomInt random 10 (S (randomCalls g)))%Z in
  (S (S (randomCalls g)) <= m1 < m2)%nat ->
  (m2 < S (S (randomCalls g)) + fuel)%nat ->
  candidateAt random correct m1 <> candidateAt random correct m2 ->
  is_Some (buildWave random fuel g).
Proof.
  intros correct Hm Hfuel Hne. unfold buildWave. fold correct.
  destruct (fillPool_complete correct fuel [correct]
              (S (S (randomCalls g)))
              [candidateAt random correct m1; candidateAt random correct m2]
              fuel) as [[pool k1] Hfill].
  - apply NoDup_cons. split; [|apply NoDup_singleton].
    rewrite list_elem_of_singleton. exact Hne.
  - intros v Hv. split.
    + rewrite list_elem_of_singleton. intros ->.
      apply elem_of_cons in Hv as [Hv|Hv];
        [|apply list_elem_of_singleton in Hv];
        symmetry in Hv; now apply candidateAt_ne in Hv.
    + apply elem_of_cons in Hv as [->|Hv];
        [|apply list_elem_of_singleton in Hv; subst v].
      * exists m1. split; [lia|reflexivity].
      * exists m2. split; [lia|reflexivity].
  - simpl. unfold FRUIT_COUNT. lia.
  - lia.
  - rewrite Hfill. simpl.
    destruct (shuffle random (length pool - 1) pool k1). eauto.
Qed.
End WaveGenerator.

Lemma sampleWave_built : buildWave sampleRandom 2 initialGame = Some sampleWave.
Proof. vm_compute. reflexivity. Qed.

Lemma buildWave_wave_valid_witness :
  let a := randomInt sampleRandom 10 (randomCalls initialGame) in
  let b := randomInt sampleRandom 10 (S (randomCalls initialGame)) in
  length (answers sampleWave) = 3%nat /\
  NoDup (answers sampleWave) /\
  (exists i, correctIdx sampleWave = Z.of_nat i /\
             answers sampleWave !! i = Some (a + b)%Z /\
             forall j, answers sampleWave !! j = Some (a + b)%Z -> j = i) /\
  labels sampleWave = map (waveLabel a b) (answers sampleWave).
Proof.
  apply (buildWave_wave_valid sampleRandom 2 initialGame sampleWave).
  vm_compute. reflexivity.
Defined.

(** ** The slice scan *)

Lemma arraySet_isHidden_eq i l : isHidden (arraySet i true l) i = true.
Proof.
  unfold isHidden, arraySet.
  destruct (Nat.ltb_spec i (length l)) as [Hlt|Hge].
  - now rewrite list_lookup_insert_eq.
  - rewrite lookup_app_r by exact Hge.
    rewrite lookup_app_r by (rewrite length_replicate; lia).
    rewrite length_replicate, Nat.sub_diag. reflexivity.
Qed.

Lemma arraySet_isHidden_ne i j v l :
  i <> j -> isHidden (arraySet i v l) j = isHidden l j.
Proof.
  intros Hne. unfold isHidden, arraySet.
  destruct (Nat.ltb_spec i (length l)) as [Hlt|Hge].
  - now rewrite list_lookup_insert_ne.
  - destruct (Nat.lt_ge_cases j (length l)) as [Hj|Hj].
    + now rewrite lookup_app_l.
    + rewrite lookup_app_r by exact Hj.
      rewrite (lookup_ge_None_2 l j) by exact Hj. simpl.
      destruct (Nat.lt_ge_cases (j - length l) (i - length l)) as [Hk|Hk].
      * rewrite lookup_app_l by (rewrite length_replicate; exact Hk).
        now rewrite lookup_replicate_2.
      * rewrite lookup_app_r by (rewrite length_replicate; exact Hk).
        rewrite length_replicate.
        destruct (j - length l - (i - length l))%nat as [|k] eqn:E; [lia|].
        reflexivity.
Qed.

Lemma arraySet_length_in_range i v l :
  (i < length l)%nat -> length (arraySet i v l) = length l.
Proof.
  intros Hlt. unfold arraySet.
  destruct (Nat.ltb_spec i (length l)); [apply length_insert|lia].
Qed.

Section Scan.
Variable random : nat -> Q.
Variable now : Z.
Variables x1 y1 x2 y2 : Q.
Variables (hiddenL : list bool) (labelsL : list string) (correctIdxL : Z).

Lemma sliceCatch_hitRect fruitRefs i g :
  sliceCatch random now x1 y1 x2 y2 fruitRefs hiddenL labelsL correctIdxL i g =
  match hitRect x1 y1 x2 y2 fruitRefs hiddenL i with
  | Some r => (sliceHit random now labelsL correctIdxL i r g, Break)
  | None => (g, Continue)
  end.
Proof.
  unfold sliceCatch, sliceTry, hitRect, sliceHit.
  destruct (default false (hiddenL !! i)); [reflexivity|].
  destruct (fruitRefs !! i) as [[ref|]|]; try reflexivity.
  destruct (rect ref tt) as [[x y w h]|]; simpl; [|reflexivity].
  destruct (segIntersectsRect x1 y1 x2 y2 (x - 12) (y - 12) (w + 24) (h + 24));
    reflexivity.
Qed.

(** The hit branch of the [try] block is [sliceHit], followed by [break]. *)
Lemma sliceTry_hit fruitRefs i r g :
  hitRect x1 y1 x2 y2 fruitRefs hiddenL i = Some r ->
  sliceTry random now x1 y1 x2 y2 fruitRefs hiddenL labelsL correctIdxL i g =
  Returned (sliceHit random now labelsL correctIdxL i r g, Break).
Proof.
  unfold sliceTry, hitRect, sliceHit.
  destruct (default false (hiddenL !! i)); [discriminate|].
  destruct (fruitRefs !! i) as [[ref|]|]; try discriminate.
  destruct (rect ref tt) as [[x y w h]|]; simpl; [|discriminate].
  destruct (segIntersectsRect x1 y1 x2 y2 (x - 12) (y - 12) (w + 24) (h + 24));
    [|discriminate].
  intros [= <-]. reflexivity.
Qed.

Lemma sliceLoop_miss fruitRefs n : forall i g,
  (forall j, (i <= j < i + n)%nat ->
     hitRect x1 y1 x2 y2 fruitRefs hiddenL j = None) ->
  sliceLoop random now x1 y1 x2 y2 fruitRefs hiddenL labelsL correctIdxL n i g
  = g.
Proof.
  induction n as [|n IH]; intros i g Hmiss; simpl; [reflexivity|].
  rewrite sliceCatch_hitRect, (Hmiss i) by lia.
  apply IH. intros j Hj. apply Hmiss. lia.
Qed.

Lemma sliceLoop_first_hit fruitRefs n : forall i0 i r g,
  (i0 <= i < i0 + n)%nat ->
  hitRect x1 y1 x2 y2 fruitRefs hiddenL i = Some r ->
  (forall j, (i0 <= j < i)%nat ->
     hitRect x1 y1 x2 y2 fruitRefs hiddenL j = None) ->
  sliceLoop random now x1 y1 x2 y2 fruitRefs hiddenL labelsL correctIdxL n i0 g
  = sliceHit random now labelsL correctIdxL i r g.
Proof.
  induction n as [|n IH]; intros i0 i r g Hi Hhit Hmiss; simpl; [lia|].
  rewrite sliceCatch_hitRect.
  destruct (decide (i = i0)) as [->|Hne].
  - now rewrite Hhit.
  - rewrite (Hmiss i0) by lia.
    apply IH; [lia|exact Hhit|]. intros j Hj. apply Hmiss. lia.
Qed.

(** Either no slot in the scanned range is a hit, or there is a first one. *)
Lemma scan_cases fruitRefs n : forall i0,
  (forall j, (i0 <= j < i0 + n)%nat ->
     hitRect x1 y1 x2 y2 fruitRefs hiddenL j = None) \/
  exists i r, (i0 <= i < i0 + n)%nat /\
    hitRect x1 y1 x2 y2 fruitRefs hiddenL i = Some r /\
    forall j, (i0 <= j < i)%nat ->
      hitRect x1 y1 x2 y2 fruitRefs hiddenL j = None.
Proof.
  induction n as [|n IH]; intros i0.
  - left. intros j Hj. lia.
  - destruct (hitRect x1 y1 x2 y2 fruitRefs hiddenL i0) as [r|] eqn:E.
    + right. exists i0, r. repeat split; [lia|lia|exact E|]. intros j Hj. lia.
    + destruct (IH (S i0)) as [Hmiss|(i & r & Hi & Hhit & Hmiss)].
      * left. intros j Hj.
        destruct (decide (j = i0)) as [->|]; [exact E|]. apply Hmiss. lia.
      * right. exists i, r. repeat split; [lia|lia|exact Hhit|].
        intros j Hj.
        destruct (decide (j = i0)) as [->|]; [exact E|]. apply Hmiss. lia.
Qed.

Lemma sliceLoop_ext refs refs' n : forall i g,
  (forall j, hitRect x1 y1 x2 y2 refs hiddenL j =
             hitRect x1 y1 x2 y2 refs' hiddenL j) ->
  sliceLoop random now x1 y1 x2 y2 refs hiddenL labelsL correctIdxL n i g =
  sliceLoop random now x1 y1 x2 y2 refs' hiddenL labelsL correctIdxL n i g.
Proof.
  induction n as [|n IH]; intros i g Hext; simpl; [reflexivity|].
  rewrite !sliceCatch_hitRect, Hext.
  destruct (hitRect x1 y1 x2 y2 refs' hiddenL i); [reflexivity|].
  now apply IH.
Qed.
End Scan.

(** ** Strings *)

Lemma split_no_equals s : noEquals s = true -> split "=" s = [s].
Proof.
  induction s as [|c s IH]; simpl; [reflexivity|].
  intros [Hc Hs]%andb_true_iff. apply negb_true_iff in Hc.
  rewrite Hc, (IH Hs). reflexivity.
Qed.

Lemma split_at_equals l r :
  noEquals l = true ->
  split "=" (l ++ String "=" r) = l :: split "=" r.
Proof.
  induction l as [|c l IH]; simpl; [reflexivity|].
  intros [Hc Hl]%andb_true_iff. apply negb_true_iff in Hc.
  rewrite Hc, (IH Hl). reflexivity.
Qed.

Lemma trimStart_noSpace s : noSpace s = true -> trimStart s = s.
Proof.
  destruct s as [|c s]; simpl; [reflexivity|].
  intros [Hc _]%andb_true_iff. apply negb_true_iff in Hc. now rewrite Hc.
Qed.

Lemma trimEnd_noSpace s : noSpace s = true -> trimEnd s = s.
Proof.
  induction s as [|c s IH]; simpl; [reflexivity|].
  intros [Hc Hs]%andb_true_iff. apply negb_true_iff in Hc.
  rewrite (IH Hs), Hc. now destruct s.
Qed.

Lemma trimEnd_app_noSpace s t :
  noSpace t = true -> t <> EmptyString -> trimEnd (s ++ t) = (s ++ t)%string.
Proof.
  intros Ht Hne. induction s as [|c s IH]; simpl.
  - now apply trimEnd_noSpace.
  - rewrite IH. destruct (s ++ t)%string eqn:E; [|reflexivity].
    destruct s; simpl in E; [contradiction|discriminate].
Qed.

Lemma trimEnd_app_space s : trimEnd (s ++ " ") = trimEnd s.
Proof.
  induction s as [|c s IH]; simpl; [reflexivity|]. now rewrite IH.
Qed.

Lemma append_assoc (s t u : string) : ((s ++ t) ++ u = s ++ (t ++ u))%string.
Proof. induction s as [|c s IH]; simpl; [reflexivity|]. now rewrite IH. Qed.

Lemma noEquals_app s t :
  noEquals (s ++ t) = noEquals s && noEquals t.
Proof.
  induction s as [|c s IH]; simpl; [reflexivity|].
  now rewrite IH, andb_assoc.
Qed.

(** Decimal numerals have neither ["="] nor white space, and are not empty. *)
Lemma string_of_uint_plain d :
  noEquals (NilEmpty.string_of_uint d) = true /\
  noSpace (NilEmpty.string_of_uint d) = true.
Proof. induction d; simpl; tauto. Qed.

Lemma numToString_plain n :
  noEquals (numToString n) = true /\ noSpace (numToString n) = true /\
  numToString n <> EmptyString.
Proof.
  unfold numToString.
  assert (Hu : forall d,
    noEquals (NilZero.string_of_uint d) = true /\
    noSpace (NilZero.string_of_uint d) = true /\
    NilZero.string_of_uint d <> EmptyString).
  { intros d. destruct (string_of_uint_plain d) as [He Hs].
    destruct d; simpl in *; repeat split; auto; discriminate. }
  destruct (Z.to_int n) as [d|d]; simpl.
  - apply Hu.
  - destruct (Hu d) as (He & Hs & _). repeat split; auto; discriminate.
Qed.

Lemma trim_operands (sa sb : string) :
  noSpace sa = true -> sa <> EmptyString ->
  noSpace sb = true -> sb <> EmptyString ->
  trim (sa ++ " + " ++ sb ++ " ") = (sa ++ " + " ++ sb)%string.
Proof.
  intros Hsa Hna Hsb Hnb. unfold trim.
  assert (Hstart : forall t, trimStart (sa ++ t) = (sa ++ t)%string).
  { intros t. destruct sa as [|c s]; [contradiction|].
    simpl in *. apply andb_true_iff in Hsa as [Hc _].
    apply negb_true_iff in Hc. now rewrite Hc. }
  rewrite Hstart.
  replace (sa ++ " + " ++ sb ++ " ")%string
    with (((sa ++ " + ") ++ sb) ++ " ")%string
    by (rewrite !append_assoc; reflexivity).
  rewrite trimEnd_app_space, trimEnd_app_noSpace by assumption.
  now rewrite append_assoc.
Qed.

Lemma trim_answer (sv : string) :
  noSpace sv = true -> trim (" " ++ sv) = sv.
Proof.
  intros Hsv. unfold trim. simpl. rewrite trimStart_noSpace by exact Hsv.
  now apply trimEnd_noSpace.
Qed.

(** The two texts [spawnHalves] cuts out of a label of the wave generator. *)
Lemma waveLabel_split a b v :
  let parts := split "=" (waveLabel a b v) in
  trim (orEmpty (parts !! 0%nat)) = (numToString a ++ " + " ++ numToString b)%string /\
  trim (orEmpty (parts !! 1%nat)) = numToString v.
Proof.
  destruct (numToString_plain a) as (Hea & Hsa & Hna).
  destruct (numToString_plain b) as (Heb & Hsb & Hnb).
  destruct (numToString_plain v) as (Hev & Hsv & Hnv).
  set (L := (numToString a ++ " + " ++ numToString b ++ " ")%string).
  set (R := (" " ++ numToString v)%string).
  assert (Hshape : waveLabel a b v = (L ++ String "=" R)%string).
  { unfold waveLabel, L, R. rewrite !append_assoc. reflexivity. }
  assert (HL : noEquals L = true).
  { unfold L. rewrite !noEquals_app, Hea, Heb. reflexivity. }
  assert (HR : noEquals R = true) by (unfold R; simpl; exact Hev).
  intros parts. subst parts.
  rewrite Hshape, (split_at_equals L R HL), (split_no_equals R HR).
  split.
  - change (trim L = (numToString a ++ " + " ++ numToString b)%string).
    now apply trim_operands.
  - change (trim R = numToString v). now apply trim_answer.
Qed.

(** ** Session controller: the slice handler *)

Section Slice.
Variable random : nat -> Q.
Variable now : Z.
Variables x1 y1 x2 y2 : Q.
Variable fruitRefs : list (option FruitHandle).

Lemma sliceHit_hidden labelsL correctIdxL i r g :
  hidden (sliceHit random now labelsL correctIdxL i r g)
  = arraySet i true (hidden g).
Proof.
  unfold sliceHit, spawnHalves, loseLife. simpl.
  destruct (Z.of_nat i =? correctIdxL)%Z; [reflexivity|].
  simpl. destruct (lives g - 1 <=? 0)%Z; reflexivity.
Qed.

Lemma sliceHit_timeouts labelsL correctIdxL i r g :
  timeouts (sliceHit random now labelsL correctIdxL i r g)
  = timeouts g ++ [200%Z].
Proof.
  unfold sliceHit, spawnHalves, loseLife. simpl.
  destruct (Z.of_nat i =? correctIdxL)%Z; [reflexivity|].
  simpl. destruct (lives g - 1 <=? 0)%Z; reflexivity.
Qed.

Lemma sliceHit_halves labelsL correctIdxL i r g :
  exists hl hr,
    halves (sliceHit random now labelsL correctIdxL i r g)
    = halves g ++ [hl; hr] /\
    halfLabel hl = trim (orEmpty (split "=" (orEmpty (labelsL !! i)) !! 0%nat)) /\
    halfLabel hr = trim (orEmpty (split "=" (orEmpty (labelsL !! i)) !! 1%nat)).
Proof.
  unfold sliceHit, spawnHalves, loseLife. simpl.
  eexists _, _. split.
  - destruct (Z.of_nat i =? correctIdxL)%Z; [reflexivity|].
    simpl. destruct (lives g - 1 <=? 0)%Z; reflexivity.
  - split; reflexivity.
Qed.

Lemma sliceHit_correct labelsL correctIdxL i r g :
  Z.of_nat i = correctIdxL ->
  score (sliceHit random now labelsL correctIdxL i r g) = (score g + 1)%Z /\
  lives (sliceHit random now labelsL correctIdxL i r g) = lives g /\
  gameOver (sliceHit random now labelsL correctIdxL i r g) = gameOver g.
Proof.
  intros Hi. unfold sliceHit, spawnHalves. simpl.
  apply Z.eqb_eq in Hi. rewrite Hi. simpl. auto.
Qed.

Lemma sliceHit_incorrect labelsL correctIdxL i r g :
  Z.of_nat i <> correctIdxL ->
  let lost := (lives g - 1 <=? 0)%Z in
  score (sliceHit random now labelsL correctIdxL i r g) = score g /\
  lives (sliceHit random now labelsL correctIdxL i r g)
    = (if lost then 0 else lives g - 1)%Z /\
  gameOver (sliceHit random now labelsL correctIdxL i r g)
    = (if lost then true else gameOver g).
Proof.
  intros Hi. unfold sliceHit, spawnHalves, loseLife. simpl.
  apply Z.eqb_neq in Hi. rewrite Hi. simpl.
  destruct (lives g - 1 <=? 0)%Z; simpl; auto.
Qed.

Lemma jsHandleSlice_game_over g :
  gameOverRef g = true ->
  jsHandleSlice random now x1 y1 x2 y2 fruitRefs g = g.
Proof. intros H. unfold jsHandleSlice. now rewrite H. Qed.

Lemma jsHandleSlice_slices g i r :
  gameOverRef g = false ->
  slices x1 y1 x2 y2 fruitRefs (hiddenRef g) i r ->
  jsHandleSlice random now x1 y1 x2 y2 fruitRefs g
  = sliceHit random now (labelsRef g) (correctIdxRef g) i r g.
Proof.
  intros Hplay (Hi & Hhit & Hfirst). unfold jsHandleSlice. rewrite Hplay.
  apply sliceLoop_first_hit; [lia|exact Hhit|].
  intros j Hj. apply Hfirst. lia.
Qed.

Lemma jsHandleSlice_cases g :
  jsHandleSlice random now x1 y1 x2 y2 fruitRefs g = g \/
  (gameOverRef g = false /\
   exists i r, slices x1 y1 x2 y2 fruitRefs (hiddenRef g) i r /\
     jsHandleSlice random now x1 y1 x2 y2 fruitRefs g
     = sliceHit random now (labelsRef g) (correctIdxRef g) i r g).
Proof.
  destruct (gameOverRef g) eqn:Hover.
  - left. now apply jsHandleSlice_game_over.
  - destruct (scan_cases x1 y1 x2 y2 (hiddenRef g) fruitRefs FRUIT_COUNT 0)
      as [Hmiss|(i & r & Hi & Hhit & Hfirst)].
    + left. unfold jsHandleSlice. rewrite Hover. now apply sliceLoop_miss.
    + right. split; [reflexivity|].
      assert (Hs : slices x1 y1 x2 y2 fruitRefs (hiddenRef g) i r).
      { repeat split; [lia|exact Hhit|]. intros j Hj. apply Hfirst. lia. }
      exists i, r. split; [exact Hs|]. now apply jsHandleSlice_slices.
Qed.

(** C2: while the session is playing, a segment that slices the bubble of
    the correct answer adds exactly 1 to the score, leaves the lives
    alone, hides that bubble and appends exactly two halves; their texts
    are the trimmed parts of the label left and right of its ["="], which
    for a label of the wave generator are the sum and the answer. *)
Theorem slice_correct_bubble g i r :
  synced g -> playing g ->
  slices x1 y1 x2 y2 fruitRefs (hidden g) i r ->
  Z.of_nat i = correctIdx g ->
  let g' := jsHandleSlice random now x1 y1 x2 y2 fruitRefs g in
  score g' = (score g + 1)%Z /\
  lives g' = lives g /\
  isHidden (hidden g') i = true /\
  exists hl hr,
    halves g' = halves g ++ [hl; hr] /\
    (forall l rt,
       labels g !! i = Some (l ++ String "=" rt)%string ->
       noEquals l = true -> noEquals rt = true ->
       halfLabel hl = trim l /\ halfLabel hr = trim rt) /\
    (forall a b v,
       labels g !! i = Some (waveLabel a b v) ->
       halfLabel hl = (numToString a ++ " + " ++ numToString b)%string /\
       halfLabel hr = numToString v).
Proof.
  intros (Hh & Hl & Hc & Ho) Hplay Hslices Hidx g'.
  unfold playing in Hplay.
  assert (Hg' : g' = sliceHit random now (labels g) (correctIdx g) i r g).
  { subst g'. rewrite <- Hl, <- Hc. apply jsHandleSlice_slices.
    - now rewrite Ho.
    - now rewrite Hh. }
  rewrite Hg'.
  destruct (sliceHit_correct (labels g) (correctIdx g) i r g Hidx)
    as (Hscore & Hlives & _).
  repeat split; [exact Hscore|exact Hlives| |].
  - rewrite sliceHit_hidden. apply arraySet_isHidden_eq.
  - destruct (sliceHit_halves (labels g) (correctIdx g) i r g)
      as (hl & hr & Hhalves & Hleft & Hright).
    exists hl, hr. split; [exact Hhalves|]. split.
    + intros l rt Hlabel Hnl Hnr. rewrite Hleft, Hright, Hlabel. simpl.
      rewrite (split_at_equals l rt Hnl), (split_no_equals rt Hnr).
      split; reflexivity.
    + intros a b v Hlabel. rewrite Hleft, Hright, Hlabel. simpl.
      apply waveLabel_split.
Qed.

(** C3, what the handler does on the last life: an incorrect slice sets
    the lives to 0 and ends the game, and the wave advance is scheduled
    all the same, 200 ms later. *)
Theorem slice_last_life_still_schedules_advance g i r :
  synced g -> playing g -> lives g = 1%Z ->
  slices x1 y1 x2 y2 fruitRefs (hidden g) i r ->
  Z.of_nat i <> correctIdx g ->
  let g' := jsHandleSlice random now x1 y1 x2 y2 fruitRefs g in
  lives g' = 0%Z /\ gameOver g' = true /\
  timeouts g' = timeouts g ++ [200%Z].
Proof.
  intros (Hh & Hl & Hc & Ho) Hplay Hlives Hslices Hidx g'.
  unfold playing in Hplay.
  assert (Hg' : g' = sliceHit random now (labels g) (correctIdx g) i r g).
  { subst g'. rewrite <- Hl, <- Hc. apply jsHandleSlice_slices.
    - now rewrite Ho.
    - now rewrite Hh. }
  rewrite Hg', sliceHit_timeouts.
  destruct (sliceHit_incorrect (labels g) (correctIdx g) i r g Hidx)
    as (_ & Hlv & Hgo).
  rewrite Hlv, Hgo, Hlives. simpl. auto.
Qed.

(** C7: one call of the slice scan slices at most one bubble, and while
    the session is playing it slices the first slot in ascending order
    that is a hit.  A segment that hits some slot has a first hit no
    later than it; the handler then writes exactly what the hit branch
    writes for that first slot, so that slot becomes hidden and every
    other flag is kept, in particular the flag of any later slot the
    segment also crosses.  With no hit, or when the game is over, the
    state is left alone. *)
Theorem slice_scan_hides_at_most_one g :
  let g' := jsHandleSlice random now x1 y1 x2 y2 fruitRefs g in
  (gameOverRef g = false ->
   forall i r, slices x1 y1 x2 y2 fruitRefs (hiddenRef g) i r ->
     g' = sliceHit random now (labelsRef g) (correctIdxRef g) i r g /\
     hidden g' = arraySet i true (hidden g) /\
     isHidden (hidden g') i = true /\
     forall j, j <> i -> isHidden (hidden g') j = isHidden (hidden g) j) /\
  (forall j rj, (j < FRUIT_COUNT)%nat ->
     hitRect x1 y1 x2 y2 fruitRefs (hiddenRef g) j = Some rj ->
     exists i r, (i <= j)%nat /\
       slices x1 y1 x2 y2 fruitRefs (hiddenRef g) i r) /\
  (gameOverRef g = true \/
   (forall j, (j < FRUIT_COUNT)%nat ->
      hitRect x1 y1 x2 y2 fruitRefs (hiddenRef g) j = None) ->
   g' = g) /\
  (g' = g \/
   exists i r, slices x1 y1 x2 y2 fruitRefs (hiddenRef g) i r /\
     hidden g' = arraySet i true (hidden g) /\
     isHidden (hidden g') i = true /\
     forall j, j <> i -> isHidden (hidden g') j = isHidden (hidden g) j) /\
  (forall i j ri rj, (i < j)%nat ->
     hitRect x1 y1 x2 y2 fruitRefs (hiddenRef g) i = Some ri ->
     hitRect x1 y1 x2 y2 fruitRefs (hiddenRef g) j = Some rj ->
     isHidden (hidden g') j = isHidden (hidden g) j).
Proof.
  intros g'. subst g'. split; [|split; [|split]].
  - intros Hplay i r Hs.
    rewrite (jsHandleSlice_slices g i r Hplay Hs), sliceHit_hidden.
    split; [reflexivity|]. split; [reflexivity|]. split.
    + apply arraySet_isHidden_eq.
    + intros j Hj. apply arraySet_isHidden_ne. congruence.
  - intros j rj Hj Hhit.
    destruct (scan_cases x1 y1 x2 y2 (hiddenRef g) fruitRefs (S j) 0)
      as [Hmiss|(i & r & Hi & Hhiti & Hfirst)].
    + rewrite Hmiss in Hhit by lia. discriminate.
    + exists i, r. split; [lia|].
      split; [lia|]. split; [exact Hhiti|].
      intros k Hk. apply Hfirst. lia.
  - intros [Hover|Hmiss].
    + now apply jsHandleSlice_game_over.
    + unfold jsHandleSlice. destruct (gameOverRef g); [reflexivity|].
      apply sliceLoop_miss. intros j Hj. apply Hmiss. lia.
  - destruct (jsHandleSlice_cases g) as [Hsame|(_ & i0 & r0 & Hs & Heq)].
    + rewrite Hsame. split; [now left|]. reflexivity.
    + rewrite Heq, sliceHit_hidden. split.
      * right. exists i0, r0.
        split; [exact Hs|]. split; [reflexivity|]. split.
        -- apply arraySet_isHidden_eq.
        -- intros j Hj. apply arraySet_isHidden_ne. congruence.
      * intros i j ri rj Hij Hi Hj.
        apply arraySet_isHidden_ne.
        destruct Hs as (_ & _ & Hfirst).
        intros ->. rewrite (Hfirst i Hij) in Hi. discriminate.
Qed.

(** C9: when [rect()] of one bubble throws, the exception is caught in
    that pass, the pass leaves the state alone and asks for the next
    slot; the whole scan behaves as if the slot were not mounted, and the
    bubble keeps its flag. *)
Theorem slice_rect_exception_is_miss g i h :
  fruitRefs !! i = Some (Some h) ->
  rect h tt = Thrown ->
  let g' := jsHandleSlice random now x1 y1 x2 y2 fruitRefs g in
  (forall g0,
     sliceCatch random now x1 y1 x2 y2 fruitRefs
       (hiddenRef g) (labelsRef g) (correctIdxRef g) i g0 = (g0, Continue)) /\
  g' = jsHandleSlice random now x1 y1 x2 y2 (<[i := None]> fruitRefs) g /\
  isHidden (hidden g') i = isHidden (hidden g) i.
Proof.
  intros Href Hthrow g'.
  assert (Hnone : hitRect x1 y1 x2 y2 fruitRefs (hiddenRef g) i = None).
  { unfold hitRect. rewrite Href, Hthrow. now destruct (default _ _). }
  split; [|split].
  - intros g0. now rewrite sliceCatch_hitRect, Hnone.
  - subst g'. unfold jsHandleSlice.
    destruct (gameOverRef g); [reflexivity|].
    apply sliceLoop_ext. intros j. unfold hitRect.
    destruct (decide (j = i)) as [->|Hne].
    + rewrite Href, Hthrow.
      rewrite list_lookup_insert_eq by (eapply lookup_lt_Some; exact Href).
      reflexivity.
    + now rewrite list_lookup_insert_ne.
  - subst g'.
    destruct (jsHandleSlice_cases g) as [Hsame|(_ & i0 & r0 & Hs & Heq)].
    + now rewrite Hsame.
    + rewrite Heq, sliceHit_hidden. apply arraySet_isHidden_ne.
      destruct Hs as (_ & Hhit & _). intros ->. congruence.
Qed.
End Slice.

(** ** Session controller: falls, wave advance, reachable states *)

Lemma commitEffects_synced g : synced (commitEffects g).
Proof. repeat split. Qed.

Lemma handleFruitFall_below g :
  (fallenCountRef g + 1 < Z.of_nat FRUIT_COUNT)%Z ->
  handleFruitFall g = setFallenCount (fallenCountRef g + 1) g.
Proof.
  intros Hlt. unfold handleFruitFall. simpl.
  destruct (Z.leb_spec (Z.of_nat FRUIT_COUNT) (fallenCountRef g + 1)) as [Hge|_];
    [lia|reflexivity].
Qed.

(** C10: a fall that leaves the counter below [FRUIT_COUNT] = 3 changes the
    counter and nothing else: score, lives, game-over flag, hidden flags,
    the wave (labels, answers, correct index), the halves and the pending
    wave advances are as before. *)
Theorem fall_below_count_changes_only_counter g :
  (fallenCountRef g + 1 < Z.of_nat FRUIT_COUNT)%Z ->
  let g' := handleFruitFall g in
  g' = setFallenCount (fallenCountRef g + 1) g /\
  fallenCountRef g' = (fallenCountRef g + 1)%Z /\
  score g' = score g /\ lives g' = lives g /\ gameOver g' = gameOver g /\
  hidden g' = hidden g /\ labels g' = labels g /\ answers g' = answers g /\
  correctIdx g' = correctIdx g /\ halves g' = halves g /\
  waveId g' = waveId g /\ timeouts g' = timeouts g.
Proof.
  intros Hlt g'. subst g'. rewrite (handleFruitFall_below g Hlt).
  simpl. repeat split.
Qed.

Lemma fall_below_count_changes_only_counter_witness :
  (fallenCountRef sampleGame + 1 < Z.of_nat FRUIT_COUNT)%Z /\
  handleFruitFall sampleGame
  = setFallenCount (fallenCountRef sampleGame + 1) sampleGame.
Proof.
  assert (H : (fallenCountRef sampleGame + 1 < Z.of_nat FRUIT_COUNT)%Z)
    by (vm_compute; reflexivity).
  split; [exact H|].
  exact (proj1 (fall_below_count_changes_only_counter sampleGame H)).
Defined.

Section Session.
Variable random : nat -> Q.

Lemma buildWave_frame fuel g g' :
  buildWave random fuel g = Some g' ->
  score g' = score g /\ lives g' = lives g /\ gameOver g' = gameOver g /\
  waveId g' = waveId g /\ timeouts g' = timeouts g /\
  hidden g' = replicate FRUIT_COUNT false /\
  fallenCountRef g' = 0%Z /\ halves g' = [].
Proof.
  unfold buildWave. intros Hrun.
  destruct (fillPool random fuel _ _ _) as [[pool k1]|];
    simpl in Hrun; [|discriminate].
  destruct (shuffle random (length pool - 1) pool k1) as [arr k2].
  injection Hrun as <-. simpl. repeat split.
Qed.

(** The fall that completes the count takes a life; with lives to spare
    it schedules the wave advance 250 ms later. *)
Lemma handleFruitFall_last g :
  (Z.of_nat FRUIT_COUNT <= fallenCountRef g + 1)%Z ->
  gameOverRef g = false -> (1 < lives g)%Z ->
  handleFruitFall g
  = setLives (lives g - 1)
      (setTimeout 250 (setFallenCount (fallenCountRef g + 1) g)).
Proof.
  intros Hcount Hplay Hlives. unfold handleFruitFall. simpl.
  destruct (Z.leb_spec (Z.of_nat FRUIT_COUNT) (fallenCountRef g + 1)); [|lia].
  rewrite Hplay. simpl.
  destruct (Z.leb_spec (lives g - 1) 0); [lia|reflexivity].
Qed.

(** C4: from a playing session with 3 lives at the start of a wave, three
    falls leave 2 lives and one pending wave advance; when it fires, and
    the draws let the generator finish within the fuel, the new wave has
    its fallen counter at 0 and no hidden bubble. *)
Theorem all_bubbles_fall_next_wave g fuel m1 m2 :
  synced g -> playing g -> lives g = 3%Z -> fallenCountRef g = 0%Z ->
  (S (S (randomCalls g)) <= m1 < m2)%nat ->
  (m2 < S (S (randomCalls g)) + fuel)%nat ->
  (let correct := (randomInt random 10 (randomCalls g)
                   + randomInt random 10 (S (randomCalls g)))%Z in
   candidateAt random correct m1 <> candidateAt random correct m2) ->
  let fall g := commitEffects (handleFruitFall g) in
  let g3 := fall (fall (fall g)) in
  lives g3 = 2%Z /\ gameOver g3 = false /\
  timeouts g3 = timeouts g ++ [250%Z] /\
  exists g4,
    fireTimeout random (length (timeouts g)) fuel g3 = Some g4 /\
    lives g4 = 2%Z /\ gameOver g4 = false /\
    fallenCountRef g4 = 0%Z /\
    hidden g4 = [false; false; false] /\
    waveId g4 = (waveId g + 1)%Z /\
    timeouts g4 = timeouts g.
Proof.
  intros (Hh & Hl & Hc & Ho) Hplay Hlives Hcount Hm Hfuel Hne fall g3.
  unfold playing in Hplay.
  assert (H1 : fall g = commitEffects (setFallenCount 1 g)).
  { unfold fall. rewrite handleFruitFall_below, Hcount;
      [reflexivity|rewrite Hcount; unfold FRUIT_COUNT; simpl; lia]. }
  assert (H2 : fall (fall g) = commitEffects (setFallenCount 2 g)).
  { rewrite H1. unfold fall. rewrite handleFruitFall_below;
      [reflexivity|unfold FRUIT_COUNT; simpl; lia]. }
  assert (H3 : g3 = commitEffects
                 (setLives 2 (setTimeout 250 (setFallenCount 3 g)))).
  { unfold g3. rewrite H2. unfold fall.
    rewrite handleFruitFall_last; unfold FRUIT_COUNT; simpl; try lia.
    - now rewrite Hlives.
    - exact Hplay. }
  rewrite H3. simpl. rewrite Hplay.
  repeat split.
  unfold fireTimeout. simpl.
  rewrite lookup_app_r, Nat.sub_diag by lia. simpl.
  assert (Hdel : delete (length (timeouts g)) (timeouts g ++ [250%Z])
                 = timeouts g).
  { induction (timeouts g) as [|t ts IH]; simpl; [reflexivity|].
    now rewrite IH. }
  rewrite Hdel. unfold nextWave.
  match goal with |- context [buildWave random fuel ?s] => set (g0 := s) end.
  destruct (buildWave_produces random fuel g0 m1 m2) as [g4 Hbuilt];
    [exact Hm|exact Hfuel|exact Hne|].
  exists g4. split; [exact Hbuilt|].
  apply buildWave_frame in Hbuilt.
  destruct Hbuilt as (_ & Hlv & Hgo & Hw & Ht & Hhid & Hfc & _).
  rewrite Hlv, Hgo, Hw, Ht, Hhid, Hfc. simpl. rewrite Hplay.
  repeat split.
Qed.

Lemma sessionInv_commit g : sessionInv g -> sessionInv (commitEffects g).
Proof. intros H. exact H. Qed.

Lemma sessionInv_buildWave fuel g g' :
  buildWave random fuel g = Some g' -> sessionInv g -> sessionInv g'.
Proof.
  intros Hrun (Hs & Hl & Hg). apply buildWave_frame in Hrun.
  destruct Hrun as (Es & El & Eg & _). unfold sessionInv.
  now rewrite Es, El, Eg.
Qed.

Lemma sessionInv_loseLife_fields (l : Z) (go : bool) :
  (0 <= l)%Z -> (l = 0%Z <-> go = true) ->
  let lost := (l - 1 <=? 0)%Z in
  (0 <= (if lost then 0 else l - 1))%Z /\
  ((if lost then 0 else l - 1)%Z = 0%Z <-> (if lost then true else go) = true).
Proof.
  intros Hl Hg lost. subst lost.
  destruct (Z.leb_spec (l - 1) 0) as [Hle|Hgt].
  - split; [lia|tauto].
  - split; [lia|]. split; [lia|].
    intros Hgo. apply Hg in Hgo. lia.
Qed.

Lemma sessionInv_slice now x1 y1 x2 y2 fruitRefs g :
  sessionInv g ->
  sessionInv (jsHandleSlice random now x1 y1 x2 y2 fruitRefs g).
Proof.
  intros Hinv.
  destruct (jsHandleSlice_cases random now x1 y1 x2 y2 fruitRefs g)
    as [->|(_ & i & r & _ & ->)]; [exact Hinv|].
  destruct Hinv as (Hs & Hl & Hg). unfold sessionInv.
  destruct (decide (Z.of_nat i = correctIdxRef g)) as [Hi|Hi].
  - destruct (sliceHit_correct random now (labelsRef g) (correctIdxRef g)
                i r g Hi) as (Es & El & Eg).
    rewrite Es, El, Eg. repeat split; try lia; apply Hg.
  - destruct (sliceHit_incorrect random now (labelsRef g) (correctIdxRef g)
                i r g Hi) as (Es & El & Eg).
    rewrite Es, El, Eg.
    destruct (sessionInv_loseLife_fields (lives g) (gameOver g) Hl Hg)
      as (? & ?).
    repeat split; try assumption; tauto.
Qed.

Lemma sessionInv_fall g : sessionInv g -> sessionInv (handleFruitFall g).
Proof.
  intros (Hs & Hl & Hg). unfold handleFruitFall, sessionInv. simpl.
  destruct (_ && _); simpl; [|tauto].
  destruct (Z.leb_spec (lives g - 1) 0) as [Hle|Hgt]; simpl.
  - repeat split; try lia; tauto.
  - repeat split; try lia. intros Hgo. apply Hg in Hgo. lia.
Qed.

Lemma reachable_inv g : Reachable random g -> sessionInv g /\ synced g.
Proof.
  induction 1 as [fuel g Hbuilt|g g' _ [IH _] Hstep].
  - split; [|apply commitEffects_synced].
    apply sessionInv_commit, (sessionInv_buildWave fuel initialGame);
      [exact Hbuilt|].
    unfold sessionInv. simpl. repeat split; try lia; discriminate.
  - destruct Hstep as [now x1 y1 x2 y2 refs g|g|n fuel g g' Hfire
                       |fuel g g' Hover Hrestart|id g];
      (split; [|apply commitEffects_synced]); apply sessionInv_commit.
    + now apply sessionInv_slice.
    + now apply sessionInv_fall.
    + unfold fireTimeout, nextWave in Hfire.
      destruct (timeouts g !! n); [|discriminate].
      apply (sessionInv_buildWave _ _ _ Hfire). exact IH.
    + unfold restart in Hrestart.
      apply (sessionInv_buildWave _ _ _ Hrestart).
      unfold sessionInv. simpl. repeat split; try lia; discriminate.
    + exact IH.
Qed.

(** In every reachable state the [hidden] array has one flag per slot,
    so the write of the slice handler is always in range. *)
Lemma reachable_hidden_length g :
  Reachable random g -> length (hidden g) = FRUIT_COUNT.
Proof.
  induction 1 as [fuel g Hbuilt|g g' _ IH Hstep].
  - apply buildWave_frame in Hbuilt. simpl.
    destruct Hbuilt as (_ & _ & _ & _ & _ & -> & _). apply length_replicate.
  - destruct Hstep as [now x1 y1 x2 y2 refs g|g|n fuel g g' Hfire
                       |fuel g g' Hover Hrestart|id g]; simpl.
    + destruct (jsHandleSlice_cases random now x1 y1 x2 y2 refs g)
        as [->|(_ & i & r & (Hi & _) & ->)]; [exact IH|].
      rewrite sliceHit_hidden, arraySet_length_in_range; [exact IH|].
      now rewrite IH.
    + unfold handleFruitFall. simpl.
      destruct (_ && _); simpl; [|exact IH].
      destruct (lives g - 1 <=? 0)%Z; exact IH.
    + unfold fireTimeout, nextWave in Hfire.
      destruct (timeouts g !! n); [|discriminate].
      apply buildWave_frame in Hfire.
      destruct Hfire as (_ & _ & _ & _ & _ & -> & _). apply length_replicate.
    + apply buildWave_frame in Hrestart.
      destruct Hrestart as (_ & _ & _ & _ & _ & -> & _). apply length_replicate.
    + exact IH.
Qed.

(** C5: in every reachable state the score and the lives are at least 0;
    the lives are 0 exactly when the game is over; and while the game is
    over a slice event returns the state it was given. *)
Theorem reachable_session_invariants g :
  Reachable random g ->
  (0 <= score g)%Z /\ (0 <= lives g)%Z /\
  (lives g = 0%Z <-> gameOver g = true) /\
  (gameOver g = true ->
   forall now x1 y1 x2 y2 fruitRefs,
     jsHandleSlice random now x1 y1 x2 y2 fruitRefs g = g).
Proof.
  intros Hreach.
  destruct (reachable_inv g Hreach) as ((Hs & Hl & Hg) & (_ & _ & _ & Ho)).
  repeat split; try assumption; try apply Hg.
  intros Hover now x1 y1 x2 y2 fruitRefs.
  apply jsHandleSlice_game_over. now rewrite Ho.
Qed.
End Session.

(** ** Falling bodies: how often the off-screen events fire *)

Lemma Qlt_bool_iff a b : Qlt_bool a b = true <-> a < b.
Proof.
  unfold Qlt_bool. rewrite negb_true_iff.
  destruct (Qle_bool b a) eqn:E.
  - apply Qle_bool_iff in E. split; [discriminate|]. intros H. lra.
  - split; [|reflexivity]. intros _.
    destruct (Qlt_le_dec a b) as [Hlt|Hle]; [exact Hlt|].
    apply Qle_bool_iff in Hle. congruence.
Qed.

Section Frames.
Variable height : Q.

(** The latch of a bubble: once [fell] is set, a frame emits nothing and
    leaves it set, wherever the bubble is. *)
Lemma bubbleFrame_latched p b :
  fell b = true ->
  snd (bubbleFrame height p b) = false /\
  fell (fst (bubbleFrame height p b)) = true.
Proof.
  intros Hfell. unfold bubbleFrame. destruct p; simpl; [auto|].
  rewrite Hfell. simpl. auto.
Qed.

(** A frame that emits the fall sets the latch. *)
Lemma bubbleFrame_fires p b :
  snd (bubbleFrame height p b) = true ->
  fell b = false /\ fell (fst (bubbleFrame height p b)) = true.
Proof.
  unfold bubbleFrame. destruct p; simpl; [discriminate|].
  destruct (fell b); simpl; [discriminate|].
  destruct (Qlt_bool (height + 120) (bubble_y b + bubble_vy b)); simpl;
    [auto|discriminate].
Qed.

(** A visible bubble that crosses the line with the latch open emits. *)
Lemma bubbleFrame_crossing_fires b :
  fell b = false -> height + 120 < bubble_y b + bubble_vy b ->
  snd (bubbleFrame height false b) = true.
Proof.
  intros Hfell Hy. unfold bubbleFrame. rewrite Hfell.
  apply Qlt_bool_iff in Hy. rewrite Hy. reflexivity.
Qed.

Lemma bubbleFrames_latched props : forall b,
  fell b = true -> countTrue (snd (bubbleFrames height props b)) = 0%nat.
Proof.
  induction props as [|p props IH]; intros b Hfell; simpl; [reflexivity|].
  destruct (bubbleFrame_latched p b Hfell) as [Hev Hkeep].
  destruct (bubbleFrame height p b) as [b1 ev]. simpl in *. subst ev.
  specialize (IH b1 Hkeep).
  destruct (bubbleFrames height props b1) as [b2 evs]. simpl in *. exact IH.
Qed.

(** Over any run of frames a bubble emits its fall at most once. *)
Lemma bubbleFrames_at_most_once props : forall b,
  (countTrue (snd (bubbleFrames height props b)) <= 1)%nat.
Proof.
  induction props as [|p props IH]; intros b; simpl; [lia|].
  pose proof (bubbleFrame_fires p b) as Hfire.
  destruct (bubbleFrame height p b) as [b1 ev]. simpl in Hfire.
  pose proof (IH b1) as Hrest.
  pose proof (bubbleFrames_latched props b1) as Hlatched.
  destruct (bubbleFrames height props b1) as [b2 evs]. simpl in *.
  destruct ev; [|exact Hrest].
  destruct Hfire as [_ Hset]; [reflexivity|].
  rewrite (Hlatched Hset). lia.
Qed.

(** C6, what the frame callback of a sliced half does: there is no latch,
    so from the frame that takes it below [height + 200] on, every frame
    calls [onDone] again. *)
Theorem half_done_refires n : forall h,
  height + 200 < piece_y h + piece_vy h -> 0 <= piece_vy h ->
  snd (halfFrames height n h) = replicate n true.
Proof.
  induction n as [|n IH]; intros h Hy Hvy; simpl; [reflexivity|].
  specialize (IH (mkHalf (piece_x h + piece_vx h) (piece_y h + piece_vy h)
                    (piece_vx h) (piece_vy h + GRAVITY) (piece_rot h + 2))).
  simpl in IH.
  destruct (halfFrames height n _) as [h2 evs]. simpl in *.
  rewrite IH; [|unfold GRAVITY; lra|unfold GRAVITY; lra].
  apply Qlt_bool_iff in Hy. now rewrite Hy.
Qed.
End Frames.

Lemma half_done_refires_witness :
  snd (halfFrames 800 3 (mkHalf 100 1000 6 5 15)) = [true; true; true].
Proof.
  apply (half_done_refires 800 3 (mkHalf 100 1000 6 5 15)); simpl; lra.
Defined.

(** ** The theorems at sample inputs *)

Lemma sampleGame_synced : synced sampleGame.
Proof. repeat split. Qed.

Lemma slice_correct_bubble_witness :
  let g' := jsHandleSlice sampleRandom 1000 200 250 200 340 sampleRefs sampleGame in
  score g' = 1%Z /\ lives g' = 3%Z /\ isHidden (hidden g') 1 = true /\
  exists hl hr,
    halves g' = [hl; hr] /\ halfLabel hl = "3 + 4"%string /\
    halfLabel hr = "7"%string.
Proof.
  destruct (slice_correct_bubble sampleRandom 1000 200 250 200 340 sampleRefs
              sampleGame 1 (mkRect (slot 420 1) 300 FRUIT_W FRUIT_H))
    as (Hscore & Hlives & Hhid & hl & hr & Hhalves & _ & Hlabel).
  - exact sampleGame_synced.
  - reflexivity.
  - split; [unfold FRUIT_COUNT; lia|]. split; [vm_compute; reflexivity|].
    intros [|j] Hj; [vm_compute; reflexivity|lia].
  - reflexivity.
  - intros g'. repeat split; try assumption.
    exists hl, hr. split; [exact Hhalves|].
    apply (Hlabel 3%Z 4%Z 7%Z). reflexivity.
Defined.

Lemma slice_last_life_still_schedules_advance_witness :
  let g' := jsHandleSlice sampleRandom 1000 50 250 50 340 sampleRefs lastLifeGame in
  lives g' = 0%Z /\ gameOver g' = true /\ timeouts g' = [200%Z].
Proof.
  apply (slice_last_life_still_schedules_advance sampleRandom 1000
           50 250 50 340 sampleRefs lastLifeGame 0
           (mkRect (slot 420 0) 300 FRUIT_W FRUIT_H)).
  - repeat split.
  - reflexivity.
  - reflexivity.
  - split; [unfold FRUIT_COUNT; lia|]. split; [vm_compute; reflexivity|].
    intros j Hj. lia.
  - discriminate.
Defined.

(** The advance scheduled by the slice that ended the game fires: a new
    wave is written while the game is over. *)
Lemma game_over_advance_fires :
  let g' := commitEffects
    (jsHandleSlice sampleRandom 1000 50 250 50 340 sampleRefs lastLifeGame) in
  exists g2, fireTimeout sampleRandom 0 3 g' = Some g2 /\
    gameOver g2 = true /\ answers g2 = [7; 4; 5]%Z /\
    hidden g2 = [false; false; false] /\ waveId g2 = 1%Z.
Proof. eexists. split; [vm_compute; reflexivity|]. repeat split. Qed.

Lemma all_bubbles_fall_next_wave_witness :
  let fall g := commitEffects (handleFruitFall g) in
  let g3 := fall (fall (fall sampleGame)) in
  lives g3 = 2%Z /\ gameOver g3 = false /\ timeouts g3 = [250%Z] /\
  exists g4,
    fireTimeout sampleRandom 0 2 g3 = Some g4 /\
    lives g4 = 2%Z /\ gameOver g4 = false /\ fallenCountRef g4 = 0%Z /\
    hidden g4 = [false; false; false] /\ waveId g4 = 1%Z /\ timeouts g4 = [].
Proof.
  apply (all_bubbles_fall_next_wave sampleRandom sampleGame 2 8 9).
  - exact sampleGame_synced.
  - reflexivity.
  - reflexivity.
  - reflexivity.
  - simpl. lia.
  - simpl. lia.
  - vm_compute. discriminate.
Defined.

Lemma reachable_session_invariants_witness :
  (0 <= score sampleGame)%Z /\ (0 <= lives sampleGame)%Z /\
  (lives sampleGame = 0%Z <-> gameOver sampleGame = true) /\
  (gameOver sampleGame = true ->
   forall now x1 y1 x2 y2 fruitRefs,
     jsHandleSlice sampleRandom now x1 y1 x2 y2 fruitRefs sampleGame
     = sampleGame).
Proof.
  apply (reachable_session_invariants sampleRandom sampleGame).
  exact (ReachMount sampleRandom 2 sampleWave sampleWave_built).
Defined.

(** A swipe across all three sample bubbles hides the first one only. *)
Lemma slice_scan_hides_at_most_one_witness :
  let g' := jsHandleSlice sampleRandom 1000 (-50) 340 450 340 sampleRefs sampleGame in
  hidden g' = [true; false; false] /\
  isHidden (hidden g') 0 = true /\
  isHidden (hidden g') 1 = isHidden (hidden sampleGame) 1 /\
  isHidden (hidden g') 2 = isHidden (hidden sampleGame) 2 /\
  exists i r, (i <= 2)%nat /\
    slices (-50) 340 450 340 sampleRefs (hiddenRef sampleGame) i r.
Proof.
  intros g'.
  destruct (slice_scan_hides_at_most_one sampleRandom 1000
              (-50) 340 450 340 sampleRefs sampleGame)
    as (Hfirst & Hsome & _ & _ & Hlater).
  assert (Hs : slices (-50) 340 450 340 sampleRefs (hiddenRef sampleGame)
                 0 (mkRect (slot 420 0) 300 FRUIT_W FRUIT_H)).
  { split; [unfold FRUIT_COUNT; lia|]. split; [vm_compute; reflexivity|].
    intros j Hj. lia. }
  destruct (Hfirst eq_refl 0%nat _ Hs) as (_ & Hhid & Hzero & _).
  split; [exact Hhid|]. split; [exact Hzero|]. split; [|split].
  - apply (Hlater 0 1 (mkRect (slot 420 0) 300 FRUIT_W FRUIT_H)
                  (mkRect (slot 420 1) 300 FRUIT_W FRUIT_H))%nat;
      [lia|vm_compute; reflexivity..].
  - apply (Hlater 0 2 (mkRect (slot 420 0) 300 FRUIT_W FRUIT_H)
                  (mkRect (slot 420 2) 300 FRUIT_W FRUIT_H))%nat;
      [lia|vm_compute; reflexivity..].
  - apply (Hsome 2%nat (mkRect (slot 420 2) 300 FRUIT_W FRUIT_H));
      [unfold FRUIT_COUNT; lia|vm_compute; reflexivity].
Defined.

(** With the first handle broken, the same swipe slices the second bubble. *)
Lemma slice_rect_exception_is_miss_witness :
  let g' := jsHandleSlice sampleRandom 1000 (-50) 340 450 340 brokenRefs sampleGame in
  hidden g' = [false; true; false] /\
  g' = jsHandleSlice sampleRandom 1000 (-50) 340 450 340
         (<[0%nat := None]> brokenRefs) sampleGame /\
  isHidden (hidden g') 0 = isHidden (hidden sampleGame) 0.
Proof.
  intros g'. split; [vm_compute; reflexivity|].
  apply (slice_rect_exception_is_miss sampleRandom 1000 (-50) 340 450 340
           brokenRefs sampleGame 0 brokenHandle); reflexivity.
Defined.

(** * Further properties *)

(** ** Geometry in double precision *)

Lemma is_nan_isNaN (f : float) : PrimFloat.is_nan f = true -> isNaN f.
Proof.
  unfold PrimFloat.is_nan, isNaN. rewrite FloatAxioms.eqb_spec.
  destruct (Prim2SF f) as [s|s| |s m e]; cbn; try discriminate.
  - now destruct s.
  - reflexivity.
  - destruct s; rewrite Z.compare_refl;
      change (PosDef.Pos.compare_cont Eq m m) with (Pos.compare m m);
      rewrite Pos.compare_refl; discriminate.
Qed.

Lemma sub_isNaN (a b : float) : isNaN a \/ isNaN b -> isNaN (a - b)%float.
Proof.
  unfold isNaN. rewrite sub_spec. intros [H|H]; rewrite H.
  - reflexivity.
  - now destruct (Prim2SF a) as [[|]|[|]| |].
Qed.

Lemma mul_isNaN (a b : float) : isNaN a \/ isNaN b -> isNaN (a * b)%float.
Proof.
  unfold isNaN. rewrite mul_spec. intros [H|H]; rewrite H.
  - reflexivity.
  - now destruct (Prim2SF a).
Qed.

Lemma isNaN_vanishes (f : float) : isNaN f -> vanishes f.
Proof. unfold isNaN, vanishes. now intros ->. Qed.

(** Every coordinate enters the determinant, so a NaN anywhere makes it
    a NaN. *)
Lemma det_isNaN (x1 y1 x2 y2 x3 y3 x4 y4 : float) :
  isNaN x1 \/ isNaN y1 \/ isNaN x2 \/ isNaN y2 \/
  isNaN x3 \/ isNaN y3 \/ isNaN x4 \/ isNaN y4 ->
  isNaN (det x1 y1 x2 y2 x3 y3 x4 y4).
Proof.
  unfold det. intros H. apply sub_isNaN.
  destruct H as [H|[H|[H|[H|[H|[H|[H|H]]]]]]].
  - left. apply mul_isNaN. left. apply sub_isNaN. now left.
  - right. apply mul_isNaN. left. apply sub_isNaN. now left.
  - left. apply mul_isNaN. left. apply sub_isNaN. now right.
  - right. apply mul_isNaN. left. apply sub_isNaN. now right.
  - right. apply mul_isNaN. right. apply sub_isNaN. now left.
  - left. apply mul_isNaN. right. apply sub_isNaN. now left.
  - right. apply mul_isNaN. right. apply sub_isNaN. now right.
  - left. apply mul_isNaN. right. apply sub_isNaN. now right.
Qed.

(** X1: what [segIntersect] never reports, in double precision and for
    all inputs, the infinities and NaN included: two horizontal
    segments, two vertical segments (so collinear segments along an axis
    are not reported even when they overlap), a pair in which either
    segment has length zero, and any pair with a NaN coordinate.
    Otherwise it reports exactly when the computed determinant is not 0
    and both computed parameters are in the unit interval. *)
Theorem segIntersect_double_degenerate (x1 y1 x2 y2 x3 y3 x4 y4 : float) :
  Double.segIntersect x1 y1 x2 y1 x3 y3 x4 y3 = false /\
  Double.segIntersect x1 y1 x1 y2 x3 y3 x3 y4 = false /\
  Double.segIntersect x1 y1 x1 y1 x3 y3 x4 y4 = false /\
  Double.segIntersect x1 y1 x2 y2 x3 y3 x3 y3 = false /\
  (PrimFloat.is_nan x1 = true \/ PrimFloat.is_nan y1 = true \/
   PrimFloat.is_nan x2 = true \/ PrimFloat.is_nan y2 = true \/
   PrimFloat.is_nan x3 = true \/ PrimFloat.is_nan y3 = true \/
   PrimFloat.is_nan x4 = true \/ PrimFloat.is_nan y4 = true ->
   Double.segIntersect x1 y1 x2 y2 x3 y3 x4 y4 = false) /\
  (Double.segIntersect x1 y1 x2 y2 x3 y3 x4 y4 = true <->
   crosses x1 y1 x2 y2 x3 y3 x4 y4).
Proof.
  split; [apply segIntersect_both_horizontal|].
  split; [apply segIntersect_both_vertical|].
  split; [apply segIntersect_point|].
  split; [|split; [|apply segIntersect_crosses]].
  - apply segIntersect_det_vanishes. unfold det.
    apply sub_vanishes; apply mul_vanishes_r, sub_self_vanishes.
  - intros H. apply segIntersect_det_vanishes, isNaN_vanishes, det_isNaN.
    repeat (destruct H as [H|H]; [apply is_nan_isNaN in H; tauto|]).
    apply is_nan_isNaN in H. tauto.
Qed.

(** Two overlapping segments on the line [y = 188], and a segment to a
    point that was never measured. *)
Lemma segIntersect_double_degenerate_witness :
  Double.segIntersect 100 188 300 188 88 188 252 188 = false /\
  Double.segIntersect 100 100 nan 300 88 188 252 188 = false.
Proof.
  split.
  - exact (proj1 (segIntersect_double_degenerate
                    100 188 300 188 88 188 252 188)).
  - destruct (segIntersect_double_degenerate 100 100 nan 300 88 188 252 188)
      as (_ & _ & _ & _ & Hnan & _).
    apply Hnan. right; right; left. reflexivity.
Defined.

(** X2: in double precision [segIntersectsRect] is not symmetric in the
    direction of the segment.  On the padded rectangle of a bubble at
    (100, 200), the vertical segment between (150, -812) and
    (150, 188 - 2^-45) is a hit when it runs towards the rectangle and
    not a hit when it runs away from it. *)
Theorem segIntersectsRect_double_direction :
  let y := (188 - 0x1p-45)%float in
  (Double.segIntersectsRect 150 (-812) 150 y
     (100 - 12) (200 - 12) (140 + 24) (84 + 24) = true /\
   Double.segIntersectsRect 150 y 150 (-812)
     (100 - 12) (200 - 12) (140 + 24) (84 + 24) = false) /\
  ~ (forall x1 y1 x2 y2 rx ry rw rh,
       Double.segIntersectsRect x1 y1 x2 y2 rx ry rw rh
       = Double.segIntersectsRect x2 y2 x1 y1 rx ry rw rh).
Proof.
  intros y. split; [split; vm_compute; reflexivity|].
  intros Hsym.
  specialize (Hsym 150 (-812) 150 y 88 188 164 108)%float.
  vm_compute in Hsym. discriminate.
Qed.

(** X3: in double precision a hit does not tell that the segment touches
    the boundary of the rectangle.  On the padded rectangle of a bubble
    at (100, 200), whose left edge is at [x = 88], every point of the
    horizontal segment from (251, 240) to (88 + 2^-46, 240) is strictly
    inside, and the segment is a hit: [251 - (88 + 2^-46)] rounds to 163,
    so [t] is 1 on the left edge. *)
Theorem segIntersectsRect_double_inside_hit :
  let x := (88 + 0x1p-46)%float in
  onValues8 fullyInside 251 240 x 240
    (100 - 12) (200 - 12) (140 + 24) (84 + 24) /\
  88 < value x /\
  (251 - x =? 163)%float = true /\
  Double.segIntersectsRect 251 240 x 240
    (100 - 12) (200 - 12) (140 + 24) (84 + 24) = true.
Proof.
  intros x. subst x.
  split; [|split; [values; lra|split; vm_compute; reflexivity]].
  unfold onValues8. intros t Ht. unfold inOpenRect, lerp. values. lra.
Qed.

(** ** Wave generator *)

Section WaveGeneratorMore.
Variable random : nat -> Q.

(** What the [while] loop returns is the pool it was given followed by
    values it drew, and it draws at most [fuel] times. *)
Lemma fillPool_draws fuel correct : forall pool k pool' k',
  fillPool random fuel correct pool k = Some (pool', k') ->
  (k <= k' <= k + fuel)%nat /\
  exists extra, pool' = pool ++ extra /\
    forall v, v ∈ extra ->
      exists m, (k <= m < k')%nat /\ candidateAt random correct m = v.
Proof.
  induction fuel as [|fuel IH]; intros pool k pool' k' Hrun; simpl in Hrun;
    destruct (Nat.ltb_spec (length pool) FRUIT_COUNT) as [Hlt|Hge];
    try discriminate.
  - injection Hrun as <- <-. split; [lia|]. exists [].
    split; [now rewrite app_nil_r|]. intros v Hv. now apply elem_of_nil in Hv.
  - apply IH in Hrun. destruct Hrun as (Hk & extra & Hpool & Hextra).
    split; [lia|]. unfold setAdd in Hpool. case_decide as Hin.
    + exists extra. split; [exact Hpool|].
      intros v Hv. destruct (Hextra v Hv) as (m & Hm & Hc).
      exists m. split; [lia|exact Hc].
    + exists (candidateAt random correct k :: extra).
      split; [now rewrite Hpool, <- app_assoc|].
      intros v Hv. apply elem_of_cons in Hv as [->|Hv].
      * exists k. split; [lia|reflexivity].
      * destruct (Hextra v Hv) as (m & Hm & Hc).
        exists m. split; [lia|exact Hc].
  - injection Hrun as <- <-. split; [lia|]. exists [].
    split; [now rewrite app_nil_r|]. intros v Hv. now apply elem_of_nil in Hv.
Qed.

(** X4: [buildWave] returns a wave exactly when, among the first [fuel]
    draws after the two operands, two give different candidates; so with
    a source whose draws all give the same candidate the loop never ends,
    whatever the fuel. *)
Theorem buildWave_returns_iff fuel g :
  let k := S (S (randomCalls g)) in
  let correct := (randomInt random 10 (randomCalls g)
                  + randomInt random 10 (S (randomCalls g)))%Z in
  is_Some (buildWave random fuel g) <->
  exists m1 m2, (k <= m1 < m2)%nat /\ (m2 < k + fuel)%nat /\
    candidateAt random correct m1 <> candidateAt random correct m2.
Proof.
  intros k correct. split.
  - intros [g' Hrun]. unfold buildWave in Hrun. fold correct k in Hrun.
    destruct (fillPool random fuel correct [correct] k) as [[pool k1]|] eqn:Hfill;
      simpl in Hrun; [|discriminate].
    pose proof (fillPool_inv random fuel correct _ _ _ _ Hfill
                  (NoDup_singleton correct)
                  ltac:(apply list_elem_of_singleton; reflexivity)
                  ltac:(simpl; unfold FRUIT_COUNT; lia))
      as (Hnd & _ & Hlen & _).
    apply fillPool_draws in Hfill.
    destruct Hfill as (Hk & extra & -> & Hextra).
    destruct extra as [|v1 [|v2 [|v3 extra]]];
      simpl in Hlen; unfold FRUIT_COUNT in Hlen; try lia.
    destruct (Hextra v1) as (m1 & Hm1 & Hc1); [left|].
    destruct (Hextra v2) as (m2 & Hm2 & Hc2); [right; left|].
    assert (Hne : v1 <> v2).
    { simpl in Hnd. apply NoDup_cons in Hnd as [_ Hnd].
      apply NoDup_cons in Hnd as [Hnd _].
      rewrite list_elem_of_singleton in Hnd. exact Hnd. }
    assert (Hm : m1 <> m2) by (intros ->; congruence).
    destruct (Nat.lt_ge_cases m1 m2) as [Hlt|Hge].
    + exists m1, m2. repeat split; try lia; congruence.
    + exists m2, m1. repeat split; try lia; congruence.
  - intros (m1 & m2 & Hm & Hfuel & Hne).
    now apply (buildWave_produces random fuel g m1 m2).
Qed.

(** X5: under the contract of [Math.random()], the operands of a wave are
    digits, the sum is between 0 and 18, every answer is within 2 of the
    sum, and [correctIdx] is one of the three slots. *)
Theorem buildWave_ranges fuel g g' :
  (forall n, 0 <= random n < 1) ->
  buildWave random fuel g = Some g' ->
  let a := randomInt random 10 (randomCalls g) in
  let b := randomInt random 10 (S (randomCalls g)) in
  (0 <= a <= 9)%Z /\ (0 <= b <= 9)%Z /\
  (forall v, v ∈ answers g' -> (a + b - 2 <= v <= a + b + 2)%Z) /\
  (0 <= correctIdx g' < 3)%Z.
Proof.
  intros Hunit Hrun a b.
  pose proof (randomInt_range random 10 (randomCalls g) (Hunit _) ltac:(lia)) as Ha.
  pose proof (randomInt_range random 10 (S (randomCalls g)) (Hunit _) ltac:(lia))
    as Hb.
  fold a in Ha. fold b in Hb.
  split; [lia|]. split; [lia|].
  unfold buildWave in Hrun. fold a b in Hrun.
  destruct (fillPool random fuel (a + b) [(a + b)%Z] (S (S (randomCalls g))))
    as [[pool k1]|] eqn:Hfill; simpl in Hrun; [|discriminate].
  pose proof (fillPool_inv random fuel (a + b)%Z _ _ _ _ Hfill
                (NoDup_singleton _)
                ltac:(apply list_elem_of_singleton; reflexivity)
                ltac:(simpl; unfold FRUIT_COUNT; lia))
    as (_ & Hin & Hlen & _).
  apply fillPool_draws in Hfill. destruct Hfill as (_ & extra & Hpool & Hextra).
  pose proof (shuffle_perm random (length pool - 1) pool k1) as Hperm.
  destruct (shuffle random (length pool - 1) pool k1) as [arr k2].
  simpl in Hperm. injection Hrun as <-. simpl. split.
  - intros v Hv. rewrite Hperm, Hpool in Hv.
    apply elem_of_cons in Hv as [->|Hv]; [lia|].
    destruct (Hextra v Hv) as (m & _ & <-).
    apply candidateAt_range. apply Hunit.
  - assert (Hin' : (a + b)%Z ∈ arr) by (now rewrite Hperm).
    destruct (indexOf_spec _ _ Hin') as (i & -> & Hi & _).
    apply lookup_lt_Some in Hi.
    rewrite (Permutation_length Hperm), Hlen in Hi. unfold FRUIT_COUNT in Hi. lia.
Qed.
End WaveGeneratorMore.

Lemma sampleRandom_unit n : 0 <= sampleRandom n < 1.
Proof.
  unfold sampleRandom.
  destruct (n mod 6)%nat as [|[|[|[|[|?]]]]]; lra.
Qed.

Lemma buildWave_ranges_witness :
  let a := randomInt sampleRandom 10 (randomCalls initialGame) in
  let b := randomInt sampleRandom 10 (S (randomCalls initialGame)) in
  (0 <= a <= 9)%Z /\ (0 <= b <= 9)%Z /\
  (forall v, v ∈ answers sampleWave -> (a + b - 2 <= v <= a + b + 2)%Z) /\
  (0 <= correctIdx sampleWave < 3)%Z.
Proof.
  apply (buildWave_ranges sampleRandom 2 initialGame sampleWave).
  - exact sampleRandom_unit.
  - vm_compute. reflexivity.
Defined.

(** ** Session controller *)

Lemma filter_id_idem (id : Z) (l : list HalfItem) :
  filter (fun h => half_id h <> id) (filter (fun h => half_id h <> id) l)
  = filter (fun h => half_id h <> id) l.
Proof.
  induction l as [|h l IH]; [reflexivity|].
  rewrite (filter_cons _ h l). case_decide as Hh.
  - rewrite filter_cons. case_decide; [|contradiction]. now rewrite IH.
  - exact IH.
Qed.

Lemma filter_id_comm (id id' : Z) (l : list HalfItem) :
  filter (fun h => half_id h <> id) (filter (fun h => half_id h <> id') l)
  = filter (fun h => half_id h <> id') (filter (fun h => half_id h <> id) l).
Proof.
  induction l as [|h l IH]; [reflexivity|].
  rewrite !(filter_cons _ h l).
  destruct (decide (half_id h <> id')) as [H'|H'];
    destruct (decide (half_id h <> id)) as [H|H];
    rewrite ?filter_cons; repeat case_decide; try contradiction;
    now rewrite ?IH.
Qed.

Lemma filter_id_fresh (id : Z) (l : list HalfItem) :
  (forall h, h ∈ l -> half_id h <> id) ->
  filter (fun h => half_id h <> id) l = l.
Proof.
  induction l as [|h l IH]; intros Hfresh; [reflexivity|].
  rewrite filter_cons. case_decide as Hh.
  - rewrite IH; [reflexivity|]. intros h' Hh'. apply Hfresh. now right.
  - exfalso. apply (Hfresh h); [left|exact Hh].
Qed.

(** X6: [removeHalf] drops every half with the given id and keeps the
    others; calling it again with the same id changes nothing, so the
    repeated [onDone] calls of a half are harmless, and removals of two
    ids can come in either order. *)
Theorem removeHalf_algebra id id' g :
  removeHalf id (removeHalf id g) = removeHalf id g /\
  removeHalf id (removeHalf id' g) = removeHalf id' (removeHalf id g) /\
  (forall h, h ∈ halves (removeHalf id g) <-> h ∈ halves g /\ half_id h <> id).
Proof.
  unfold removeHalf, setHalves. simpl. split; [|split].
  - now rewrite filter_id_idem.
  - now rewrite filter_id_comm.
  - intros h. rewrite list_elem_of_filter. tauto.
Qed.

Section SessionMore.
Variable random : nat -> Q.

(** X7: when the ids drawn by [spawnHalves] are not in use, removing the
    two halves it added gives back the list of halves it started from. *)
Theorem spawn_then_remove_both now cx cy fullLabel g :
  let idBase := (now + randomInt random 1000 (randomCalls g))%Z in
  (forall h, h ∈ halves g -> half_id h <> idBase /\ half_id h <> (idBase + 1)%Z) ->
  halves (removeHalf (idBase + 1)
            (removeHalf idBase (spawnHalves random now cx cy fullLabel g)))
  = halves g.
Proof.
  intros idBase Hfresh.
  set (left := trim (orEmpty (split "=" fullLabel !! 0%nat))).
  set (right := trim (orEmpty (split "=" fullLabel !! 1%nat))).
  set (hl := mkHalfItem idBase true (cx - 20) cy left right).
  set (hr := mkHalfItem (idBase + 1) false (cx + 20) cy left right).
  change (filter (fun h => half_id h <> (idBase + 1)%Z)
            (filter (fun h => half_id h <> idBase) (halves g ++ [hl; hr]))
          = halves g).
  assert (H1 : filter (fun h => half_id h <> idBase) [hl; hr] = [hr]).
  { rewrite filter_cons. case_decide as Hd; [now simpl in Hd|].
    rewrite filter_cons. case_decide as Hd'; [reflexivity|].
    simpl in Hd'. lia. }
  assert (H2 : filter (fun h => half_id h <> (idBase + 1)%Z) [hr] = []).
  { rewrite filter_cons. case_decide as Hd; [now simpl in Hd|reflexivity]. }
  rewrite filter_app, H1, filter_app, H2, app_nil_r.
  rewrite (filter_id_fresh idBase) by (intros h Hh; now apply Hfresh).
  apply filter_id_fresh. intros h Hh. now apply Hfresh.
Qed.

(** X8: the texts [spawnHalves] gives the two halves it appends: for a
    label without ["="] (such as the empty label) the left text is the
    trimmed label and the right text is empty; with more than one ["="]
    the right text is the part between the first two and the rest is
    dropped.  Both halves sit 20 to either side of the centre and the
    call uses exactly one draw. *)
Theorem spawnHalves_texts now cx cy fullLabel g :
  let g' := spawnHalves random now cx cy fullLabel g in
  randomCalls g' = S (randomCalls g) /\
  exists hl hr,
    halves g' = halves g ++ [hl; hr] /\
    half_id hr = (half_id hl + 1)%Z /\
    half_x hl = cx - 20 /\ half_x hr = cx + 20 /\
    half_y hl = cy /\ half_y hr = cy /\
    (noEquals fullLabel = true ->
     halfLabel hl = trim fullLabel /\ halfLabel hr = EmptyString) /\
    (forall l m rest,
       fullLabel = (l ++ String "=" (m ++ String "=" rest))%string ->
       noEquals l = true -> noEquals m = true ->
       halfLabel hl = trim l /\ halfLabel hr = trim m).
Proof.
  intros g'. subst g'. unfold spawnHalves. simpl. split; [reflexivity|].
  eexists _, _. split; [reflexivity|]. simpl.
  do 5 (split; [reflexivity|]). split.
  - intros Hnone. rewrite (split_no_equals fullLabel Hnone). split; reflexivity.
  - intros l m rest -> Hl Hm. rewrite (split_at_equals l _ Hl). simpl.
    rewrite (split_at_equals m rest Hm). split; reflexivity.
Qed.

Lemma sliceHit_frame now labelsL correctIdxL i r g :
  let g' := sliceHit random now labelsL correctIdxL i r g in
  labels g' = labels g /\ answers g' = answers g /\
  correctIdx g' = correctIdx g /\ waveId g' = waveId g /\
  fallenCountRef g' = fallenCountRef g /\
  hiddenRef g' = hiddenRef g /\ labelsRef g' = labelsRef g /\
  correctIdxRef g' = correctIdxRef g /\ gameOverRef g' = gameOverRef g /\
  randomCalls g' = S (randomCalls g).
Proof.
  unfold sliceHit, spawnHalves, loseLife. simpl.
  destruct (Z.of_nat i =? correctIdxL)%Z; simpl; [repeat split|].
  destruct (lives g - 1 <=? 0)%Z; simpl; repeat split.
Qed.

(** X9: one call of [jsHandleSlice] never touches the wave (labels,
    answers, correct index), the wave id, the fallen counter or the
    mirrors; it adds 0 or 1 to the score, takes 0 or 1 life and never does
    both; hidden flags are only ever set; and it schedules at most one
    wave advance, of 200 ms. *)
Theorem jsHandleSlice_frame now x1 y1 x2 y2 fruitRefs g :
  let g' := jsHandleSlice random now x1 y1 x2 y2 fruitRefs g in
  (labels g' = labels g /\ answers g' = answers g /\
   correctIdx g' = correctIdx g /\ waveId g' = waveId g /\
   fallenCountRef g' = fallenCountRef g) /\
  (hiddenRef g' = hiddenRef g /\ labelsRef g' = labelsRef g /\
   correctIdxRef g' = correctIdxRef g /\ gameOverRef g' = gameOverRef g) /\
  ((score g' = score g /\ lives g' = lives g /\ gameOver g' = gameOver g) \/
   (score g' = (score g + 1)%Z /\ lives g' = lives g /\
    gameOver g' = gameOver g) \/
   (score g' = score g /\ (1 < lives g)%Z /\ lives g' = (lives g - 1)%Z /\
    gameOver g' = gameOver g) \/
   (score g' = score g /\ (lives g <= 1)%Z /\ lives g' = 0%Z /\
    gameOver g' = true)) /\
  (forall j, isHidden (hidden g) j = true -> isHidden (hidden g') j = true) /\
  (timeouts g' = timeouts g \/ timeouts g' = timeouts g ++ [200%Z]).
Proof.
  intros g'. subst g'.
  destruct (jsHandleSlice_cases random now x1 y1 x2 y2 fruitRefs g)
    as [->|(_ & i & r & _ & ->)].
  { repeat split; auto. }
  destruct (sliceHit_frame now (labelsRef g) (correctIdxRef g) i r g)
    as (E1 & E2 & E3 & E4 & E5 & E6 & E7 & E8 & E9 & _).
  split; [repeat split; assumption|]. split; [repeat split; assumption|].
  split; [|split].
  - destruct (decide (Z.of_nat i = correctIdxRef g)) as [Hi|Hi].
    + destruct (sliceHit_correct random now (labelsRef g) (correctIdxRef g)
                  i r g Hi) as (Es & El & Eg).
      right; left. auto.
    + destruct (sliceHit_incorrect random now (labelsRef g) (correctIdxRef g)
                  i r g Hi) as (Es & El & Eg).
      right; right. rewrite Es, El, Eg.
      destruct (Z.leb_spec (lives g - 1) 0) as [Hle|Hgt].
      * right. repeat split; lia.
      * left. repeat split; lia.
  - intros j Hj. rewrite sliceHit_hidden.
    destruct (decide (i = j)) as [->|Hne]; [apply arraySet_isHidden_eq|].
    now rewrite arraySet_isHidden_ne.
  - right. apply sliceHit_timeouts.
Qed.

(** X10: an incorrect slice with lives to spare costs exactly one life,
    leaves the score alone, keeps the session playing, hides the sliced
    bubble, appends two halves and schedules the 200 ms advance. *)
Theorem slice_incorrect_bubble now x1 y1 x2 y2 fruitRefs g i r :
  synced g -> playing g -> (1 < lives g)%Z ->
  slices x1 y1 x2 y2 fruitRefs (hidden g) i r ->
  Z.of_nat i <> correctIdx g ->
  let g' := jsHandleSlice random now x1 y1 x2 y2 fruitRefs g in
  score g' = score g /\ lives g' = (lives g - 1)%Z /\ gameOver g' = false /\
  isHidden (hidden g') i = true /\
  length (halves g') = (length (halves g) + 2)%nat /\
  timeouts g' = timeouts g ++ [200%Z].
Proof.
  intros (Hh & Hl & Hc & Ho) Hplay Hlives Hslices Hidx g'.
  unfold playing in Hplay.
  assert (Hg' : g' = sliceHit random now (labels g) (correctIdx g) i r g).
  { subst g'. rewrite <- Hl, <- Hc. apply jsHandleSlice_slices.
    - now rewrite Ho.
    - now rewrite Hh. }
  rewrite Hg', sliceHit_timeouts, sliceHit_hidden.
  destruct (sliceHit_incorrect random now (labels g) (correctIdx g) i r g Hidx)
    as (Hs & Hlv & Hgo).
  destruct (sliceHit_halves random now (labels g) (correctIdx g) i r g)
    as (hl & hr & Hhalves & _).
  rewrite Hs, Hlv, Hgo, Hhalves, Hplay.
  destruct (Z.leb_spec (lives g - 1) 0) as [Hle|_]; [lia|].
  repeat split; [apply arraySet_isHidden_eq|].
  rewrite length_app. reflexivity.
Qed.

(** X11: a slot that is hidden, or whose handle is not mounted, is never
    sliced; with no slot left to test (in particular with no handle at
    all) the handler returns the state it was given. *)
Theorem slice_without_target now x1 y1 x2 y2 fruitRefs g :
  (forall i, (i < FRUIT_COUNT)%nat ->
     isHidden (hiddenRef g) i = true \/
     fruitRefs !! i = None \/ fruitRefs !! i = Some None) ->
  jsHandleSlice random now x1 y1 x2 y2 fruitRefs g = g.
Proof.
  intros Hnone. unfold jsHandleSlice. destruct (gameOverRef g); [reflexivity|].
  apply sliceLoop_miss. intros j Hj. unfold hitRect.
  destruct (Hnone j ltac:(lia)) as [Hhid|[Href|Href]].
  - unfold isHidden in Hhid. now rewrite Hhid.
  - rewrite Href. now destruct (default _ _).
  - rewrite Href. now destruct (default _ _).
Qed.
End SessionMore.

Lemma spawn_then_remove_both_witness :
  let idBase := (1000 + randomInt sampleRandom 1000 (randomCalls sampleGame))%Z in
  halves (removeHalf (idBase + 1)
            (removeHalf idBase
               (spawnHalves sampleRandom 1000 210 342 "3 + 4 = 7" sampleGame)))
  = halves sampleGame.
Proof.
  apply (spawn_then_remove_both sampleRandom 1000 210 342 "3 + 4 = 7" sampleGame).
  intros h Hh. simpl in Hh. now apply elem_of_nil in Hh.
Defined.

Lemma slice_incorrect_bubble_witness :
  let g' := jsHandleSlice sampleRandom 1000 50 250 50 340 sampleRefs sampleGame in
  score g' = 0%Z /\ lives g' = 2%Z /\ gameOver g' = false /\
  isHidden (hidden g') 0 = true /\ length (halves g') = 2%nat /\
  timeouts g' = [200%Z].
Proof.
  apply (slice_incorrect_bubble sampleRandom 1000 50 250 50 340 sampleRefs
           sampleGame 0 (mkRect (slot 420 0) 300 FRUIT_W FRUIT_H)).
  - exact sampleGame_synced.
  - reflexivity.
  - simpl. lia.
  - split; [unfold FRUIT_COUNT; lia|]. split; [vm_compute; reflexivity|].
    intros j Hj. lia.
  - discriminate.
Defined.

Lemma slice_without_target_witness :
  jsHandleSlice sampleRandom 1000 (-50) 340 450 340 [] sampleGame = sampleGame.
Proof.
  apply (slice_without_target sampleRandom 1000 (-50) 340 450 340 [] sampleGame).
  intros i _. right; left. reflexivity.
Defined.

Section SessionAdvance.
Variable random : nat -> Q.

Lemma buildWave_wave_facts fuel g g' :
  buildWave random fuel g = Some g' ->
  length (answers g') = FRUIT_COUNT /\ length (labels g') = FRUIT_COUNT /\
  NoDup (answers g') /\
  exists (a b : Z) (i : nat),
    labels g' = map (waveLabel a b) (answers g') /\
    correctIdx g' = Z.of_nat i /\ (i < FRUIT_COUNT)%nat /\
    answers g' !! i = Some (a + b)%Z.
Proof.
  unfold buildWave. intros Hrun.
  set (a := randomInt random 10 (randomCalls g)) in *.
  set (b := randomInt random 10 (S (randomCalls g))) in *.
  destruct (fillPool random fuel (a + b) [(a + b)%Z] (S (S (randomCalls g))))
    as [[pool k1]|] eqn:Hfill; simpl in Hrun; [|discriminate].
  apply fillPool_inv in Hfill;
    [|apply NoDup_singleton|apply list_elem_of_singleton; reflexivity
     |simpl; unfold FRUIT_COUNT; lia].
  destruct Hfill as (Hnd & Hin & Hlen & _).
  pose proof (shuffle_perm random (length pool - 1) pool k1) as Hperm.
  destruct (shuffle random (length pool - 1) pool k1) as [arr k2].
  simpl in Hperm. injection Hrun as <-. simpl.
  assert (Hlen' : length arr = FRUIT_COUNT) by (now rewrite Hperm).
  assert (Hin' : (a + b)%Z ∈ arr) by (now rewrite Hperm).
  split; [exact Hlen'|]. split; [now rewrite length_map|].
  split; [now rewrite Hperm|].
  destruct (indexOf_spec _ _ Hin') as (i & Hidx & Hi & _).
  exists a, b, i. repeat split; try assumption.
  apply lookup_lt_Some in Hi. now rewrite Hlen' in Hi.
Qed.

(** X12: [restart] returns whenever the draws let the generator finish
    within the fuel, whatever the state it is called in: it sets the
    score to 0, the lives to 3 and the game-over flag to false, moves to
    the next wave id and shows a fresh wave with no hidden bubble, no
    halves and the fallen counter at 0; the pending wave advances are not
    cancelled. *)
Theorem restart_resets fuel g m1 m2 :
  (S (S (randomCalls g)) <= m1 < m2)%nat ->
  (m2 < S (S (randomCalls g)) + fuel)%nat ->
  (let correct := (randomInt random 10 (randomCalls g)
                   + randomInt random 10 (S (randomCalls g)))%Z in
   candidateAt random correct m1 <> candidateAt random correct m2) ->
  exists g', restart random fuel g = Some g' /\
    score g' = 0%Z /\ lives g' = 3%Z /\ gameOver g' = false /\
    waveId g' = (waveId g + 1)%Z /\
    hidden g' = [false; false; false] /\ halves g' = [] /\
    fallenCountRef g' = 0%Z /\
    timeouts g' = timeouts g /\
    length (answers g') = 3%nat /\ NoDup (answers g').
Proof.
  intros Hm Hfuel Hne. unfold restart.
  match goal with |- context [buildWave random fuel ?s] => set (g0 := s) end.
  destruct (buildWave_produces random fuel g0 m1 m2) as [g' Hrun];
    [exact Hm|exact Hfuel|exact Hne|].
  exists g'. split; [exact Hrun|].
  destruct (buildWave_frame random _ _ _ Hrun)
    as (Es & El & Eg & Ew & Et & Eh & Ef & Ehv).
  destruct (buildWave_wave_facts _ _ _ Hrun) as (Hlen & _ & Hnd & _).
  rewrite Es, El, Eg, Ew, Et, Eh, Ef, Ehv. simpl. repeat split; assumption.
Qed.

(** X13: a pending wave advance fires whatever the state of the game,
    provided the draws let the generator finish within the fuel: it
    leaves the pending list without that entry, moves to the next wave id
    and shows a fresh wave, and keeps the score, the lives and the
    game-over flag; an index with no pending advance fires nothing. *)
Theorem fireTimeout_effect n fuel g :
  (forall m1 m2,
     (n < length (timeouts g))%nat ->
     (S (S (randomCalls g)) <= m1 < m2)%nat ->
     (m2 < S (S (randomCalls g)) + fuel)%nat ->
     (let correct := (randomInt random 10 (randomCalls g)
                      + randomInt random 10 (S (randomCalls g)))%Z in
      candidateAt random correct m1 <> candidateAt random correct m2) ->
     exists g', fireTimeout random n fuel g = Some g' /\
       timeouts g' = delete n (timeouts g) /\
       S (length (timeouts g')) = length (timeouts g) /\
       waveId g' = (waveId g + 1)%Z /\
       score g' = score g /\ lives g' = lives g /\
       gameOver g' = gameOver g /\
       hidden g' = [false; false; false] /\ halves g' = [] /\
       fallenCountRef g' = 0%Z) /\
  ((length (timeouts g) <= n)%nat -> fireTimeout random n fuel g = None).
Proof.
  unfold fireTimeout, nextWave. split.
  - intros m1 m2 Hn Hm Hfuel Hne.
    destruct (lookup_lt_is_Some_2 _ _ Hn) as [d Hd]. rewrite Hd.
    match goal with |- context [buildWave random fuel ?s] => set (g0 := s) end.
    destruct (buildWave_produces random fuel g0 m1 m2) as [g' Hrun];
      [exact Hm|exact Hfuel|exact Hne|].
    exists g'. split; [exact Hrun|].
    destruct (buildWave_frame random _ _ _ Hrun)
      as (Es & El & Eg & Ew & Et & Eh & Ef & Ehv).
    rewrite Es, El, Eg, Ew, Et, Eh, Ef, Ehv. simpl.
    repeat split.
    rewrite length_delete by (rewrite Hd; eauto). lia.
  - intros Hge. now rewrite (lookup_ge_None_2 _ _ Hge).
Qed.

(** X14: the fall that reaches the count of [FRUIT_COUNT] = 3: while the
    game is over it only counts; on the last life it ends the game and
    schedules nothing; with lives to spare it takes one life and
    schedules the 250 ms advance.  The score and the hidden flags are
    left alone in every case. *)
Theorem fall_at_count_effect g :
  (Z.of_nat FRUIT_COUNT <= fallenCountRef g + 1)%Z ->
  let g' := handleFruitFall g in
  fallenCountRef g' = (fallenCountRef g + 1)%Z /\
  score g' = score g /\ hidden g' = hidden g /\
  (gameOverRef g = true ->
   lives g' = lives g /\ gameOver g' = gameOver g /\
   timeouts g' = timeouts g) /\
  (gameOverRef g = false -> (lives g <= 1)%Z ->
   lives g' = 0%Z /\ gameOver g' = true /\ timeouts g' = timeouts g) /\
  (gameOverRef g = false -> (1 < lives g)%Z ->
   lives g' = (lives g - 1)%Z /\ gameOver g' = gameOver g /\
   timeouts g' = timeouts g ++ [250%Z]).
Proof.
  intros Hcount g'. subst g'. unfold handleFruitFall. simpl.
  destruct (Z.leb_spec (Z.of_nat FRUIT_COUNT) (fallenCountRef g + 1)); [|lia].
  destruct (gameOverRef g); simpl.
  - repeat split; discriminate.
  - destruct (Z.leb_spec (lives g - 1) 0); simpl;
      repeat split; try discriminate; lia.
Qed.
End SessionAdvance.

(** The restart after the game has ended. *)
Lemma restart_resets_witness :
  gameOver gameOverGame = true /\ lives gameOverGame = 0%Z /\
  exists g', restart sampleRandom 3 gameOverGame = Some g' /\
    score g' = 0%Z /\ lives g' = 3%Z /\ gameOver g' = false /\
    waveId g' = 1%Z /\ hidden g' = [false; false; false] /\
    timeouts g' = [200%Z].
Proof.
  split; [reflexivity|]. split; [reflexivity|].
  destruct (restart_resets sampleRandom 3 gameOverGame 9 11)
    as (g' & Hrun & Hs & Hl & Hg & Hw & Hh & _ & _ & Ht & _).
  - simpl. lia.
  - simpl. lia.
  - vm_compute. discriminate.
  - exists g'. split; [exact Hrun|]. repeat split; assumption.
Defined.

Lemma fall_at_count_effect_witness :
  let g := setFallenCount 2 lastLifeGame in
  lives (handleFruitFall g) = 0%Z /\ gameOver (handleFruitFall g) = true /\
  timeouts (handleFruitFall g) = timeouts g.
Proof.
  intros g.
  assert (Hc : (Z.of_nat FRUIT_COUNT <= fallenCountRef g + 1)%Z)
    by (vm_compute; discriminate).
  destruct (fall_at_count_effect g Hc) as (_ & _ & _ & _ & Hlast & _).
  apply Hlast; [reflexivity|vm_compute; discriminate].
Defined.

Section ReachableMore.
Variable random : nat -> Q.

Lemma waveShown_buildWave fuel g g' :
  buildWave random fuel g = Some g' -> waveShown g'.
Proof.
  intros Hrun. unfold waveShown.
  destruct (buildWave_frame random _ _ _ Hrun) as (_ & _ & _ & _ & _ & -> & _).
  destruct (buildWave_wave_facts random _ _ _ Hrun) as (Ha & Hl & Hnd & Hex).
  split; [apply length_replicate|]. auto.
Qed.

Lemma countersInRange_buildWave fuel g g' :
  buildWave random fuel g = Some g' ->
  (lives g <= 3)%Z -> (0 <= waveId g)%Z ->
  Forall (fun d => d = 200%Z \/ d = 250%Z) (timeouts g) ->
  countersInRange g'.
Proof.
  intros Hrun Hl Hw Ht. unfold countersInRange.
  destruct (buildWave_frame random _ _ _ Hrun)
    as (_ & -> & _ & -> & -> & _ & -> & _).
  repeat split; try assumption. lia.
Qed.

Lemma waveShown_slice now x1 y1 x2 y2 fruitRefs g :
  waveShown g -> waveShown (jsHandleSlice random now x1 y1 x2 y2 fruitRefs g).
Proof.
  intros Hw.
  destruct (jsHandleSlice_cases random now x1 y1 x2 y2 fruitRefs g)
    as [->|(_ & i & r & (Hi & _) & ->)]; [exact Hw|].
  destruct Hw as (Hh & Ha & Hl & Hnd & Hex). unfold waveShown.
  destruct (sliceHit_frame random now (labelsRef g) (correctIdxRef g) i r g)
    as (-> & -> & -> & _).
  rewrite sliceHit_hidden, arraySet_length_in_range by (now rewrite Hh).
  auto.
Qed.

Lemma countersInRange_slice now x1 y1 x2 y2 fruitRefs g :
  (0 <= lives g)%Z -> countersInRange g ->
  countersInRange (jsHandleSlice random now x1 y1 x2 y2 fruitRefs g).
Proof.
  intros Hpos Hc.
  destruct (jsHandleSlice_cases random now x1 y1 x2 y2 fruitRefs g)
    as [->|(_ & i & r & _ & ->)]; [exact Hc|].
  destruct Hc as (Hl & Hf & Hw & Ht). unfold countersInRange.
  destruct (sliceHit_frame random now (labelsRef g) (correctIdxRef g) i r g)
    as (_ & _ & _ & -> & -> & _).
  rewrite sliceHit_timeouts.
  repeat split; try assumption.
  - destruct (decide (Z.of_nat i = correctIdxRef g)) as [Hi|Hi].
    + destruct (sliceHit_correct random now (labelsRef g) (correctIdxRef g)
                  i r g Hi) as (_ & -> & _). exact Hl.
    + destruct (sliceHit_incorrect random now (labelsRef g) (correctIdxRef g)
                  i r g Hi) as (_ & -> & _).
      destruct (lives g - 1 <=? 0)%Z; lia.
  - apply Forall_app. split; [exact Ht|]. apply Forall_cons. split; [now left|].
    apply Forall_nil_2.
Qed.

Lemma countersInRange_fall g :
  countersInRange g -> countersInRange (handleFruitFall g).
Proof.
  intros (Hl & Hf & Hw & Ht). unfold handleFruitFall, countersInRange. simpl.
  destruct (_ && _); simpl; [|repeat split; try assumption; lia].
  destruct (Z.leb_spec (lives g - 1) 0); simpl.
  - repeat split; try assumption; lia.
  - repeat split; try assumption; try lia.
    apply Forall_app. split; [exact Ht|]. apply Forall_cons. split; [now right|].
    apply Forall_nil_2.
Qed.

Lemma waveShown_fall g : waveShown g -> waveShown (handleFruitFall g).
Proof.
  intros Hw. unfold handleFruitFall. simpl.
  destruct (_ && _); simpl; [|exact Hw].
  destruct (lives g - 1 <=? 0)%Z; exact Hw.
Qed.

(** X15: in every reachable state the screen shows a well-formed wave:
    three hidden flags, three pairwise distinct answers, three labels that
    render the answers after the same two operands, and [correctIdx] at
    the answer that is their sum.  The lives never exceed 3, the fallen
    counter and the wave id are never negative, and every pending wave
    advance has a delay of 200 or 250 ms. *)
Theorem reachable_wave_shown g :
  Reachable random g -> waveShown g /\ countersInRange g.
Proof.
  induction 1 as [fuel g Hbuilt|g g' Hreach [IHw IHc] Hstep].
  - split.
    + exact (waveShown_buildWave _ _ _ Hbuilt).
    + apply (countersInRange_buildWave _ _ _ Hbuilt); simpl; try lia.
      apply Forall_nil_2.
  - pose proof (reachable_inv random g Hreach) as ((_ & Hpos & _) & _).
    destruct Hstep as [now x1 y1 x2 y2 refs g|g|n fuel g g' Hfire
                       |fuel g g' Hover Hrestart|id g].
    + split.
      * exact (waveShown_slice now x1 y1 x2 y2 refs g IHw).
      * exact (countersInRange_slice now x1 y1 x2 y2 refs g Hpos IHc).
    + split.
      * exact (waveShown_fall g IHw).
      * exact (countersInRange_fall g IHc).
    + unfold fireTimeout, nextWave in Hfire.
      destruct (timeouts g !! n); [|discriminate].
      destruct IHc as (Hl & _ & Hw & Ht). split.
      * exact (waveShown_buildWave _ _ _ Hfire).
      * apply (countersInRange_buildWave _ _ _ Hfire); simpl;
          [exact Hl|lia|now apply Forall_delete].
    + unfold restart in Hrestart.
      destruct IHc as (_ & _ & Hw & Ht). split.
      * exact (waveShown_buildWave _ _ _ Hrestart).
      * apply (countersInRange_buildWave _ _ _ Hrestart); simpl;
          [lia|lia|exact Ht].
    + split; [exact IHw|exact IHc].
Qed.
End ReachableMore.

Lemma reachable_wave_shown_witness :
  waveShown sampleGame /\ countersInRange sampleGame.
Proof.
  apply (reachable_wave_shown sampleRandom sampleGame).
  exact (ReachMount sampleRandom 2 sampleWave sampleWave_built).
Defined.

(** ** Falling bodies *)

Lemma Q_below_nat (q : Q) : exists n : nat, q < inject_Z (Z.of_nat n).
Proof.
  exists (Z.to_nat (Qfloor q + 1)).
  pose proof (Qlt_floor q) as Hq.
  destruct (Z.le_gt_cases 0 (Qfloor q + 1)) as [Hpos|Hneg].
  - now rewrite Z2Nat.id.
  - assert (E : Z.to_nat (Qfloor q + 1) = 0%nat) by lia. rewrite E. simpl.
    apply Qlt_trans with (inject_Z (Qfloor q + 1)); [exact Hq|].
    change 0 with (inject_Z 0). rewrite <- Zlt_Qlt. lia.
Qed.

Lemma inject_nat_succ (n : nat) :
  inject_Z (Z.of_nat (S n)) == inject_Z (Z.of_nat n) + 1.
Proof. rewrite Nat2Z.inj_succ, <- Z.add_1_r, inject_Z_plus. reflexivity. Qed.

Lemma countTrue_app l1 l2 :
  countTrue (l1 ++ l2) = (countTrue l1 + countTrue l2)%nat.
Proof. induction l1 as [|b l1 IH]; simpl; [reflexivity|]. rewrite IH. lia. Qed.

Section FramesMore.
Variable height : Q.

(** What one frame does to a visible bubble, and to a hidden one. *)
Lemma bubbleFrame_step b :
  let b' := fst (bubbleFrame height false b) in
  bubble_x b' = bubble_x b /\
  bubble_y b' = bubble_y b + bubble_vy b /\
  (bubble_vy b' = bubble_vy b + GRAVITY \/
   (bubble_vy b' = 0 /\ bubble_vy b + GRAVITY < 0)) /\
  bubble_vy b + GRAVITY <= bubble_vy b' /\
  ~ (bubble_y b' < height * 0.10 /\ bubble_vy b' < 0) /\
  bubbleFrame height true b = (b, false).
Proof.
  unfold bubbleFrame.
  destruct (Qlt_bool (bubble_y b + bubble_vy b) (height * 0.10)) eqn:Ey;
    destruct (Qlt_bool (bubble_vy b + GRAVITY) 0) eqn:Ev; simpl;
    destruct (negb (fell b) && Qlt_bool (height + 120) (bubble_y b + bubble_vy b));
    simpl; repeat split; auto; try lra;
    try (right; split; [reflexivity|now apply Qlt_bool_iff]);
    try (apply Qlt_bool_iff in Ev; lra);
    intros [Hy Hv]; apply Qlt_bool_iff in Hy; apply Qlt_bool_iff in Hv;
    congruence.
Qed.

(** X16: one frame of a visible bubble moves it by its velocity, never
    sideways; the velocity grows by [GRAVITY] unless the cap resets it to
    0, so it never drops; after the frame the bubble is never both above
    the line at a tenth of the height and still rising.  A hidden bubble
    is frozen and emits nothing. *)
Theorem bubbleFrame_motion b :
  let b' := fst (bubbleFrame height false b) in
  bubble_x b' = bubble_x b /\
  bubble_y b' = bubble_y b + bubble_vy b /\
  (bubble_vy b' = bubble_vy b + GRAVITY \/
   (bubble_vy b' = 0 /\ bubble_vy b + GRAVITY < 0)) /\
  bubble_vy b + GRAVITY <= bubble_vy b' /\
  ~ (bubble_y b' < height * 0.10 /\ bubble_vy b' < 0) /\
  bubbleFrame height true b = (b, false).
Proof. apply bubbleFrame_step. Qed.

Lemma bubbleFrames_app p1 p2 b :
  bubbleFrames height (p1 ++ p2) b =
  let '(b1, e1) := bubbleFrames height p1 b in
  let '(b2, e2) := bubbleFrames height p2 b1 in
  (b2, e1 ++ e2).
Proof.
  revert b. induction p1 as [|p p1 IH]; intros b; simpl.
  - now destruct (bubbleFrames height p2 b).
  - destruct (bubbleFrame height p b) as [b1 ev]. rewrite IH.
    destruct (bubbleFrames height p1 b1) as [b2 e1].
    now destruct (bubbleFrames height p2 b2).
Qed.

Lemma bubbleFrames_cons_fst p rest b :
  fst (bubbleFrames height (p :: rest) b)
  = fst (bubbleFrames height rest (fst (bubbleFrame height p b))).
Proof.
  cbn [bubbleFrames]. destruct (bubbleFrame height p b) as [b1 ev].
  cbn [fst snd]. now destruct (bubbleFrames height rest b1).
Qed.

Lemma bubbleFrames_cons_snd p rest b :
  snd (bubbleFrames height (p :: rest) b)
  = snd (bubbleFrame height p b)
    :: snd (bubbleFrames height rest (fst (bubbleFrame height p b))).
Proof.
  cbn [bubbleFrames]. destruct (bubbleFrame height p b) as [b1 ev].
  cbn [fst snd]. now destruct (bubbleFrames height rest b1).
Qed.

Lemma bubble_vy_grows n : forall b,
  bubble_vy b + inject_Z (Z.of_nat n) * GRAVITY
  <= bubble_vy (fst (bubbleFrames height (replicate n false) b)).
Proof.
  induction n as [|n IH]; intros b.
  - change (inject_Z (Z.of_nat 0)) with 0. cbn [replicate bubbleFrames fst]. lra.
  - change (replicate (S n) false) with (false :: replicate n false).
    rewrite bubbleFrames_cons_fst.
    pose proof (bubbleFrame_step b) as (_ & _ & _ & Hvy & _).
    specialize (IH (fst (bubbleFrame height false b))).
    rewrite inject_nat_succ. lra.
Qed.

Lemma bubble_y_grows n : forall b c,
  0 <= c -> c <= bubble_vy b ->
  bubble_y b + inject_Z (Z.of_nat n) * c
  <= bubble_y (fst (bubbleFrames height (replicate n false) b)).
Proof.
  induction n as [|n IH]; intros b c Hc Hv.
  - change (inject_Z (Z.of_nat 0)) with 0. cbn [replicate bubbleFrames fst]. lra.
  - change (replicate (S n) false) with (false :: replicate n false).
    rewrite bubbleFrames_cons_fst.
    pose proof (bubbleFrame_step b) as (_ & Hy & _ & Hvy & _).
    assert (Hv1 : c <= bubble_vy (fst (bubbleFrame height false b)))
      by (unfold GRAVITY in Hvy; lra).
    specialize (IH (fst (bubbleFrame height false b)) c Hc Hv1).
    rewrite Hy in IH. rewrite inject_nat_succ. lra.
Qed.

(** Without a fall event the latch stays open and the bubble is still at
    or above the line. *)
Lemma bubble_quiet n : forall b,
  fell b = false ->
  countTrue (snd (bubbleFrames height (replicate n false) b)) = 0%nat ->
  (1 <= n)%nat ->
  bubble_y (fst (bubbleFrames height (replicate n false) b)) <= height + 120.
Proof.
  induction n as [|n IH]; intros b Hfell Hquiet Hn; [lia|].
  change (replicate (S n) false) with (false :: replicate n false) in *.
  rewrite bubbleFrames_cons_fst. rewrite bubbleFrames_cons_snd in Hquiet.
  pose proof (bubbleFrame_crossing_fires height b Hfell) as Hcross.
  pose proof (bubbleFrame_step b) as (_ & Hy & _).
  assert (Hkeep : snd (bubbleFrame height false b) = false ->
                  fell (fst (bubbleFrame height false b)) = false).
  { unfold bubbleFrame. rewrite Hfell. simpl.
    destruct (Qlt_bool (height + 120) (bubble_y b + bubble_vy b)); simpl;
      [discriminate|reflexivity]. }
  cbn [countTrue] in Hquiet.
  destruct (snd (bubbleFrame height false b)) eqn:Hev; [lia|].
  rewrite Nat.add_0_l in Hquiet.
  destruct n as [|n].
  - cbn [replicate bubbleFrames fst].
    destruct (Qlt_le_dec (height + 120)
                (bubble_y (fst (bubbleFrame height false b)))) as [Hlt|Hle];
      [|exact Hle].
    rewrite Hy in Hlt. specialize (Hcross Hlt). discriminate.
  - apply IH; [now apply Hkeep|exact Hquiet|lia].
Qed.

(** X17: a visible bubble whose latch is open reports its fall exactly
    once: there is a number of frames after which every longer run has
    emitted the fall event once, and only once. *)
Theorem bubble_falls_exactly_once b :
  fell b = false ->
  exists n, forall m, (n <= m)%nat ->
    countTrue (snd (bubbleFrames height (replicate m false) b)) = 1%nat.
Proof.
  intros Hfell.
  destruct (Q_below_nat (5 * (1 - bubble_vy b))) as [n1 Hn1].
  pose proof (bubble_vy_grows n1 b) as Hv1.
  set (b1 := fst (bubbleFrames height (replicate n1 false) b)) in *.
  assert (Hfast : 1 <= bubble_vy b1) by (unfold GRAVITY in Hv1; lra).
  destruct (Q_below_nat (height + 120 - bubble_y b1)) as [n2 Hn2].
  pose proof (bubble_y_grows (S n2) b1 1 ltac:(lra) Hfast) as Hy2.
  rewrite inject_nat_succ in Hy2.
  assert (Hrun : fst (bubbleFrames height (replicate (n1 + S n2) false) b)
                 = fst (bubbleFrames height (replicate (S n2) false) b1)).
  { rewrite replicate_add, bubbleFrames_app. subst b1.
    destruct (bubbleFrames height (replicate n1 false) b) as [b1' e1].
    cbn [fst]. now destruct (bubbleFrames height (replicate (S n2) false) b1'). }
  assert (Hsome : countTrue (snd (bubbleFrames height
                    (replicate (n1 + S n2) false) b)) <> 0%nat).
  { intros Hquiet.
    pose proof (bubble_quiet (n1 + S n2) b Hfell Hquiet ltac:(lia)) as Hq.
    rewrite Hrun in Hq. lra. }
  exists (n1 + S n2)%nat. intros m Hm.
  replace (replicate m false)
    with (replicate (n1 + S n2) false ++ replicate (m - (n1 + S n2)) false)
    by (rewrite <- replicate_add; f_equal; lia).
  pose proof (bubbleFrames_at_most_once height
                (replicate (n1 + S n2) false
                 ++ replicate (m - (n1 + S n2)) false) b) as Hmost.
  rewrite bubbleFrames_app in Hmost |- *.
  destruct (bubbleFrames height (replicate (n1 + S n2) false) b) as [b2 e2].
  destruct (bubbleFrames height (replicate (m - (n1 + S n2)) false) b2)
    as [b3 e3].
  cbn [snd] in *. rewrite countTrue_app in *. lia.
Qed.
End FramesMore.

Lemma bubble_falls_exactly_once_witness :
  exists n, forall m, (n <= m)%nat ->
    countTrue (snd (bubbleFrames 800 (replicate m false)
                      (mkBubble 140 740 (-12.5) false))) = 1%nat.
Proof.
  apply (bubble_falls_exactly_once 800 (mkBubble 140 740 (-12.5) false)).
  reflexivity.
Defined.

Section HalfMore.
Variable height : Q.

Lemma halfFrames_S_fst n h :
  fst (halfFrames height (S n) h)
  = fst (halfFrames height n (fst (halfFrame height h))).
Proof.
  cbn [halfFrames]. destruct (halfFrame height h) as [h1 ev].
  cbn [fst]. now destruct (halfFrames height n h1).
Qed.

Lemma halfFrames_add_fst n : forall k h,
  fst (halfFrames height (n + k) h)
  = fst (halfFrames height k (fst (halfFrames height n h))).
Proof.
  induction n as [|n IH]; intros k h; [reflexivity|].
  change (S n + k)%nat with (S (n + k)).
  now rewrite !halfFrames_S_fst, IH.
Qed.

(** The state of a half after [n] frames, in closed form. *)
Lemma half_closed_form n : forall h,
  let h' := fst (halfFrames height n h) in
  let k := inject_Z (Z.of_nat n) in
  piece_vx h' = piece_vx h /\
  piece_x h' == piece_x h + k * piece_vx h /\
  piece_rot h' == piece_rot h + k * 2 /\
  piece_vy h' == piece_vy h + k * GRAVITY /\
  piece_y h' == piece_y h + k * piece_vy h + GRAVITY * (k * (k - 1) / 2).
Proof.
  induction n as [|n IH]; intros h h' k; subst h' k.
  - change (inject_Z (Z.of_nat 0)) with 0. cbn [halfFrames fst].
    repeat split; try reflexivity; field.
  - rewrite halfFrames_S_fst.
    destruct (IH (fst (halfFrame height h))) as (Evx & Ex & Er & Evy & Ey).
    rewrite Evx, Ex, Er, Evy, Ey, inject_nat_succ.
    cbn [halfFrame fst piece_x piece_y piece_vx piece_vy piece_rot].
    repeat split; try reflexivity; unfold GRAVITY; field.
Qed.

Lemma half_y_grows n : forall h c,
  0 <= c -> c <= piece_vy h ->
  piece_y h + inject_Z (Z.of_nat n) * c
  <= piece_y (fst (halfFrames height n h)).
Proof.
  induction n as [|n IH]; intros h c Hc Hv.
  - change (inject_Z (Z.of_nat 0)) with 0. cbn [halfFrames fst]. lra.
  - rewrite halfFrames_S_fst.
    assert (Hv1 : c <= piece_vy (fst (halfFrame height h)))
      by (cbn [halfFrame fst piece_vy]; unfold GRAVITY; lra).
    specialize (IH (fst (halfFrame height h)) c Hc Hv1).
    change (piece_y (fst (halfFrame height h)))
      with (piece_y h + piece_vy h) in IH.
    rewrite inject_nat_succ. lra.
Qed.

(** X19: every sliced half ends up off screen: there is a number of
    frames after which each further frame finds it below [height + 200]
    and calls [onDone]. *)
Theorem half_eventually_done h :
  exists n, forall m, (n <= m)%nat ->
    snd (halfFrame height (fst (halfFrames height m h))) = true.
Proof.
  destruct (Q_below_nat (5 * (1 - piece_vy h))) as [n1 Hn1].
  destruct (half_closed_form n1 h) as (_ & _ & _ & Hv1 & _).
  set (h1 := fst (halfFrames height n1 h)) in *.
  assert (Hfast : 1 <= piece_vy h1) by (rewrite Hv1; unfold GRAVITY; lra).
  destruct (Q_below_nat (height + 200 - piece_y h1)) as [n2 Hn2].
  exists (n1 + n2)%nat. intros m Hm.
  replace m with (n1 + (n2 + (m - (n1 + n2))))%nat by lia.
  set (k := (n2 + (m - (n1 + n2)))%nat).
  assert (Hk : inject_Z (Z.of_nat n2) <= inject_Z (Z.of_nat k)).
  { rewrite <- Zle_Qle. subst k. lia. }
  rewrite halfFrames_add_fst. fold h1.
  pose proof (half_y_grows k h1 1 ltac:(lra) Hfast) as Hy.
  destruct (half_closed_form k h1) as (_ & _ & _ & Hv & _).
  assert (Hkpos : 0 <= inject_Z (Z.of_nat k)).
  { change 0 with (inject_Z 0). rewrite <- Zle_Qle. lia. }
  cbn [halfFrame snd]. apply Qlt_bool_iff.
  rewrite Hv. unfold GRAVITY. nra.
Qed.
End HalfMore.

(** ** Swipe tracker *)

Lemma adjacent_tail {A : Type} (R : A -> A -> Prop) a l :
  adjacent R (a :: l) -> adjacent R l.
Proof. destruct l as [|b l]; simpl; tauto. Qed.

Lemma adjacent_drop {A : Type} (R : A -> A -> Prop) n : forall l,
  adjacent R l -> adjacent R (drop n l).
Proof.
  induction n as [|n IH]; intros l Hl; [now rewrite drop_0|].
  destruct l as [|a l]; [exact I|]. simpl. apply IH.
  now apply adjacent_tail in Hl.
Qed.

Lemma adjacent_snoc {A : Type} (R : A -> A -> Prop) l x :
  adjacent R l -> (forall a, last l = Some a -> R a x) ->
  adjacent R (l ++ [x]).
Proof.
  induction l as [|a l IH]; intros Hl Hlast; [exact I|].
  destruct l as [|b l].
  - simpl. split; [|exact I]. now apply Hlast.
  - change (adjacent R (a :: b :: (l ++ [x]))).
    destruct Hl as [Hab Hl]. split; [exact Hab|].
    apply IH; [exact Hl|]. intros c Hc. apply Hlast. exact Hc.
Qed.

Lemma jsAddTrail_segments x1 y1 x2 y2 s :
  let new := mkTrailSeg (segId s) x1 y1 x2 y2 in
  exists k, (k <= length (segments s))%nat /\
    segments (jsAddTrail x1 y1 x2 y2 s) = drop k (segments s) ++ [new] /\
    length (segments (jsAddTrail x1 y1 x2 y2 s))
    = Nat.min (S (length (segments s))) TRAIL_KEEP.
Proof.
  intros new. unfold jsAddTrail. cbn [segments]. fold new.
  rewrite length_app. cbn [length].
  destruct (Nat.ltb_spec TRAIL_KEEP (length (segments s) + 1)) as [Hlt|Hge].
  - exists (length (segments s) + 1 - TRAIL_KEEP)%nat.
    unfold TRAIL_KEEP in *. split; [lia|]. split.
    + now rewrite drop_app_le by lia.
    + rewrite length_drop, length_app. cbn [length]. lia.
  - exists 0%nat. unfold TRAIL_KEEP in *. split; [lia|]. split.
    + now rewrite drop_0.
    + rewrite length_app. cbn [length]. lia.
Qed.

(** X21: [jsAddTrail] puts the new segment, with the current id, at the
    end of the trail and advances the id; the trail keeps at most
    [TRAIL_KEEP] = 16 segments, dropping the oldest ones, and the last
    sample point is left alone. *)
Theorem jsAddTrail_keeps_newest x1 y1 x2 y2 s :
  let s' := jsAddTrail x1 y1 x2 y2 s in
  last (segments s') = Some (mkTrailSeg (segId s) x1 y1 x2 y2) /\
  segments s' `suffix_of`
    (segments s ++ [mkTrailSeg (segId s) x1 y1 x2 y2]) /\
  length (segments s') = Nat.min (S (length (segments s))) TRAIL_KEEP /\
  (length (segments s') <= TRAIL_KEEP)%nat /\
  segId s' = (segId s + 1)%Z /\
  lastX s' = lastX s /\ lastY s' = lastY s.
Proof.
  intros s'. subst s'.
  destruct (jsAddTrail_segments x1 y1 x2 y2 s) as (k & Hk & Hseg & Hlen).
  rewrite Hlen, Hseg. split; [apply last_snoc|]. split.
  - rewrite <- drop_app_le by exact Hk. apply suffix_drop.
  - repeat split. lia.
Qed.

(** What the tracker keeps true during a gesture. *)
Lemma trackUpdate_inv ex ey s :
  contiguous (segments s) -> consecutiveIds (segments s) ->
  (forall a, last (segments s) = Some a ->
     seg_x2 a = lastX s /\ seg_y2 a = lastY s /\ (seg_id a + 1)%Z = segId s) ->
  let s' := trackUpdate ex ey s in
  contiguous (segments s') /\ consecutiveIds (segments s') /\
  (forall a, last (segments s') = Some a ->
     seg_x2 a = lastX s' /\ seg_y2 a = lastY s' /\ (seg_id a + 1)%Z = segId s') /\
  lastX s' = ex /\ lastY s' = ey /\ segId s' = (segId s + 1)%Z /\
  length (segments s') = Nat.min (S (length (segments s))) TRAIL_KEEP.
Proof.
  intros Hc Hi Hlast s'. subst s'. unfold trackUpdate. cbn [segments segId lastX lastY].
  destruct (jsAddTrail_segments (lastX s) (lastY s) ex ey s)
    as (k & Hk & Hseg & Hlen).
  rewrite Hlen, Hseg, <- drop_app_le by exact Hk.
  split; [|split; [|split]].
  - apply adjacent_drop, adjacent_snoc; [exact Hc|].
    intros a Ha. destruct (Hlast a Ha) as (Hx & Hy & _). simpl. auto.
  - apply adjacent_drop, adjacent_snoc; [exact Hi|].
    intros a Ha. destruct (Hlast a Ha) as (_ & _ & Hid). simpl. lia.
  - intros a Ha. rewrite drop_app_le, last_snoc in Ha by exact Hk.
    injection Ha as <-. simpl. auto.
  - repeat split.
Qed.

Lemma trackUpdates_inv samples : forall s,
  (length (segments s) <= TRAIL_KEEP)%nat ->
  contiguous (segments s) -> consecutiveIds (segments s) ->
  (forall a, last (segments s) = Some a ->
     seg_x2 a = lastX s /\ seg_y2 a = lastY s /\ (seg_id a + 1)%Z = segId s) ->
  let s' := trackUpdates samples s in
  contiguous (segments s') /\ consecutiveIds (segments s') /\
  (forall a, last (segments s') = Some a ->
     seg_x2 a = lastX s' /\ seg_y2 a = lastY s' /\ (seg_id a + 1)%Z = segId s') /\
  segId s' = (segId s + Z.of_nat (length samples))%Z /\
  length (segments s')
  = Nat.min (length (segments s) + length samples) TRAIL_KEEP /\
  (lastX s', lastY s') = default (lastX s, lastY s) (last samples).
Proof.
  induction samples as [|p samples IH]; intros s Hlen Hc Hi Hlast.
  - simpl. repeat split; try assumption; try apply Hlast; try assumption; lia.
  - destruct (trackUpdate_inv (fst p) (snd p) s Hc Hi Hlast)
      as (Hc1 & Hi1 & Hlast1 & Hx1 & Hy1 & Hid1 & Hlen1).
    assert (Hlen1' : (length (segments (trackUpdate p.1 p.2 s)) <= TRAIL_KEEP)%nat)
      by (rewrite Hlen1; lia).
    destruct (IH _ Hlen1' Hc1 Hi1 Hlast1) as (Hc2 & Hi2 & Hlast2 & Hid2 & Hlen2 & Hpt).
    cbn [trackUpdates fold_left]. fold (trackUpdates samples (trackUpdate p.1 p.2 s)).
    split; [exact Hc2|]. split; [exact Hi2|]. split; [exact Hlast2|].
    split; [rewrite Hid2, Hid1; cbn [length]; lia|].
    split; [rewrite Hlen2, Hlen1; cbn [length]; lia|].
    rewrite Hpt, Hx1, Hy1. destruct samples as [|q samples]; [now destruct p|].
    rewrite last_cons_cons.
    destruct (last (q :: samples)) as [a|] eqn:Ha; [reflexivity|].
    now apply last_None in Ha.
Qed.

(** X22: over one gesture, from [onStart] through any number of updates,
    the trail holds the latest segments, at most [TRAIL_KEEP] = 16 of
    them; each starts where the one before ended and their ids grow by
    one; the last one ends at the last sample; the id counter has grown
    by the number of updates; and [onEnd] clears the trail. *)
Theorem gesture_trail ex ey samples s :
  let s' := trackUpdates samples (onStart ex ey s) in
  length (segments s') = Nat.min (length samples) TRAIL_KEEP /\
  contiguous (segments s') /\ consecutiveIds (segments s') /\
  (forall a, last (segments s') = Some a ->
     seg_x2 a = lastX s' /\ seg_y2 a = lastY s') /\
  (lastX s', lastY s') = default (ex, ey) (last samples) /\
  segId s' = (segId s + Z.of_nat (length samples))%Z /\
  segments (onEnd s') = [].
Proof.
  intros s'.
  destruct (trackUpdates_inv samples (onStart ex ey s)) as
    (Hc & Hi & Hlast & Hid & Hlen & Hpt).
  - simpl. unfold TRAIL_KEEP. lia.
  - exact I.
  - exact I.
  - intros a Ha. discriminate.
  - fold s' in Hc, Hi, Hlast, Hid, Hlen, Hpt.
    split; [exact Hlen|]. split; [exact Hc|]. split; [exact Hi|].
    split; [intros a Ha; destruct (Hlast a Ha) as (? & ? & _); auto|].
    split; [exact Hpt|]. split; [exact Hid|reflexivity].
Qed.

(** [onUpdate] hands the slice scan the very segment it appends to the
    trail, the one from the last sample to the new sample. *)
Lemma onUpdate_same_segment random now fruitRefs ex ey s g :
  let '(s', g') := onUpdate random now fruitRefs ex ey (s, g) in
  (exists a, last (segments s') = Some a /\
     g' = jsHandleSlice random now (seg_x1 a) (seg_y1 a) (seg_x2 a) (seg_y2 a)
            fruitRefs g /\
     seg_x1 a = lastX s /\ seg_y1 a = lastY s /\
     seg_x2 a = ex /\ seg_y2 a = ey) /\
  lastX s' = ex /\ lastY s' = ey.
Proof.
  cbn [onUpdate]. split; [|split; reflexivity].
  unfold trackUpdate. cbn [segments].
  destruct (jsAddTrail_segments (lastX s) (lastY s) ex ey s)
    as (k & _ & Hseg & _).
  rewrite Hseg, last_snoc. eexists. split; [reflexivity|].
  repeat split.
Qed.

(** ** Trail rendering *)

(** X23: the opacity of a trail segment lies between 0.12 and 0.70, is
    0.12 for the oldest segment, grows with the position, and is 0.70
    for the newest segment of a trail of two or more. *)
Theorem trailOpacity_range idx len :
  (idx < len)%nat ->
  0.12 <= trailOpacity idx len <= 0.7 /\
  trailOpacity 0 len == 0.12 /\
  ((2 <= len)%nat -> trailOpacity (len - 1) len == 0.7) /\
  (forall idx', (idx' < idx)%nat ->
     trailOpacity idx' len < trailOpacity idx len).
Proof.
  intros Hidx. unfold trailOpacity.
  set (d := inject_Z (Z.max 1 (Z.of_nat len - 1))).
  assert (Hd : 1 <= d).
  { subst d. change 1 with (inject_Z 1). rewrite <- Zle_Qle. lia. }
  assert (Hi : inject_Z (Z.of_nat idx) <= d).
  { subst d. rewrite <- Zle_Qle. lia. }
  assert (Hi0 : 0 <= inject_Z (Z.of_nat idx)).
  { change 0 with (inject_Z 0). rewrite <- Zle_Qle. lia. }
  assert (Hr0 : 0 <= inject_Z (Z.of_nat idx) / d)
    by (apply Qle_shift_div_l; lra).
  assert (Hr1 : inject_Z (Z.of_nat idx) / d <= 1)
    by (apply Qle_shift_div_r; lra).
  split; [lra|]. split; [|split].
  - change (inject_Z (Z.of_nat 0)) with 0. field. lra.
  - intros Hlen.
    assert (E : inject_Z (Z.of_nat (len - 1)) == d).
    { subst d. rewrite Z.max_r by lia. now rewrite Nat2Z.inj_sub by lia. }
    rewrite E. field. lra.
  - intros idx' Hlt.
    assert (Hlt' : inject_Z (Z.of_nat idx') < inject_Z (Z.of_nat idx))
      by (rewrite <- Zlt_Qlt; lia).
    assert (Hdiv : inject_Z (Z.of_nat idx') / d < inject_Z (Z.of_nat idx) / d).
    { apply Qlt_shift_div_l; [lra|].
      assert (E : inject_Z (Z.of_nat idx') / d * d == inject_Z (Z.of_nat idx'))
        by (field; lra).
      lra. }
    lra.
Qed.

Lemma trailOpacity_range_witness :
  0.12 <= trailOpacity 3 16 <= 0.7.
Proof.
  apply (trailOpacity_range 3 16). lia.
Defined.

(** ** Further theorems at sample inputs *)

(** Slicing a slot whose label is still empty gives two halves without text. *)
Lemma spawnHalves_texts_witness :
  exists hl hr,
    halves (spawnHalves sampleRandom 1000 210 342 "" sampleGame) = [hl; hr] /\
    halfLabel hl = EmptyString /\ halfLabel hr = EmptyString.
Proof.
  destruct (spawnHalves_texts sampleRandom 1000 210 342 "" sampleGame)
    as (_ & hl & hr & Hhalves & _ & _ & _ & _ & _ & Hnone & _).
  exists hl, hr. split; [exact Hhalves|]. apply Hnone. reflexivity.
Defined.

(** The advance scheduled by the slice that ended the game fires while
    the game is over. *)
Lemma fireTimeout_effect_witness :
  gameOver gameOverGame = true /\ timeouts gameOverGame = [200%Z] /\
  exists g', fireTimeout sampleRandom 0 3 gameOverGame = Some g' /\
    timeouts g' = [] /\ waveId g' = 1%Z /\ lives g' = 0%Z /\
    gameOver g' = true /\ hidden g' = [false; false; false].
Proof.
  split; [reflexivity|]. split; [reflexivity|].
  destruct (proj1 (fireTimeout_effect sampleRandom 0 3 gameOverGame) 9 11)%nat
    as (g' & Hrun & Ht & _ & Hw & _ & Hl & Hg & Hh & _).
  - simpl. lia.
  - simpl. lia.
  - simpl. lia.
  - vm_compute. discriminate.
  - exists g'. split; [exact Hrun|]. repeat split; assumption.
Defined.

Lemma gesture_trail_witness :
  let s' := trackUpdates [(10, 20); (30, 40); (50, 45)] (onStart 0 0 initialSwipe) in
  length (segments s') = 3%nat /\ contiguous (segments s') /\
  (lastX s', lastY s') = (50, 45).
Proof.
  destruct (gesture_trail 0 0 [(10, 20); (30, 40); (50, 45)] initialSwipe)
    as (Hlen & Hc & _ & _ & Hpt & _).
  split; [exact Hlen|]. split; [exact Hc|exact Hpt].
Defined.

(** ** Two slices in one wave *)

(** X24: the scheduled advance does not stop the scan.  After the correct
    bubble has been sliced, a later segment of the same wave that slices
    another bubble is honoured as well: the player keeps the point and
    loses a life, both bubbles are hidden, and two wave advances are
    pending. *)
Theorem two_slices_one_wave random now x1 y1 x2 y2 fruitRefs
    now' x1' y1' x2' y2' fruitRefs' g i r j r' :
  synced g -> playing g ->
  slices x1 y1 x2 y2 fruitRefs (hidden g) i r ->
  Z.of_nat i = correctIdx g ->
  let g1 := commitEffects (jsHandleSlice random now x1 y1 x2 y2 fruitRefs g) in
  slices x1' y1' x2' y2' fruitRefs' (hidden g1) j r' ->
  let g2 := jsHandleSlice random now' x1' y1' x2' y2' fruitRefs' g1 in
  j <> i /\
  score g2 = (score g + 1)%Z /\
  lives g2 = (if (lives g - 1 <=? 0)%Z then 0 else lives g - 1)%Z /\
  isHidden (hidden g2) i = true /\ isHidden (hidden g2) j = true /\
  timeouts g2 = timeouts g ++ [200%Z; 200%Z].
Proof.
  intros (Hh & Hl & Hc & Ho) Hplay Hslices Hidx g1 Hslices' g2.
  unfold playing in Hplay.
  assert (Hg1 : g1 = commitEffects
                       (sliceHit random now (labels g) (correctIdx g) i r g)).
  { subst g1. f_equal. rewrite <- Hl, <- Hc. apply jsHandleSlice_slices.
    - now rewrite Ho.
    - now rewrite Hh. }
  destruct (sliceHit_correct random now (labels g) (correctIdx g) i r g Hidx)
    as (Hs1 & Hl1 & Hgo1).
  destruct (sliceHit_frame random now (labels g) (correctIdx g) i r g)
    as (Elab & _ & Ecor & _).
  pose proof (sliceHit_hidden random now (labels g) (correctIdx g) i r g) as Ehid.
  pose proof (sliceHit_timeouts random now (labels g) (correctIdx g) i r g) as Et.
  assert (Hji : j <> i).
  { intros ->. destruct Hslices' as (_ & Hhit & _).
    unfold hitRect in Hhit. rewrite Hg1 in Hhit. cbn [commitEffects hidden] in Hhit.
    rewrite Ehid in Hhit.
    pose proof (arraySet_isHidden_eq i (hidden g)) as Hset.
    unfold isHidden in Hset. rewrite Hset in Hhit. discriminate. }
  assert (Hg2 : g2 = sliceHit random now' (labels g1) (correctIdx g1) j r' g1).
  { subst g2. apply (jsHandleSlice_slices random now' x1' y1' x2' y2' fruitRefs' g1).
    - rewrite Hg1. cbn [commitEffects gameOverRef]. now rewrite Hgo1.
    - rewrite Hg1 in Hslices' |- *. exact Hslices'. }
  assert (Hwrong : Z.of_nat j <> correctIdx g1).
  { rewrite Hg1. cbn [commitEffects correctIdx]. rewrite Ecor. lia. }
  destruct (sliceHit_incorrect random now' (labels g1) (correctIdx g1) j r' g1
              Hwrong) as (Hs2 & Hl2 & _).
  rewrite Hg2, Hs2, Hl2, sliceHit_hidden, sliceHit_timeouts.
  rewrite Hg1. cbn [commitEffects score lives hidden timeouts].
  rewrite Hs1, Hl1, Ehid, Et, <- app_assoc.
  split; [exact Hji|]. split; [reflexivity|]. split; [reflexivity|].
  split; [|split; [apply arraySet_isHidden_eq|reflexivity]].
  rewrite arraySet_isHidden_ne by exact Hji. apply arraySet_isHidden_eq.
Qed.

Lemma two_slices_one_wave_witness :
  let g1 := commitEffects
    (jsHandleSlice sampleRandom 1000 200 250 200 340 sampleRefs sampleGame) in
  let g2 := jsHandleSlice sampleRandom 1100 50 250 50 340 sampleRefs g1 in
  (0 <> 1)%nat /\ score g2 = 1%Z /\ lives g2 = 2%Z /\
  isHidden (hidden g2) 1 = true /\ isHidden (hidden g2) 0 = true /\
  timeouts g2 = [200%Z; 200%Z].
Proof.
  apply (two_slices_one_wave sampleRandom 1000 200 250 200 340 sampleRefs
           1100 50 250 50 340 sampleRefs sampleGame
           1 (mkRect (slot 420 1) 300 FRUIT_W FRUIT_H)
           0 (mkRect (slot 420 0) 300 FRUIT_W FRUIT_H)).
  - exact sampleGame_synced.
  - reflexivity.
  - split; [unfold FRUIT_COUNT; lia|]. split; [vm_compute; reflexivity|].
    intros [|k] Hk; [vm_compute; reflexivity|lia].
  - reflexivity.
  - split; [unfold FRUIT_COUNT; lia|]. split; [vm_compute; reflexivity|].
    intros k Hk. lia.
Defined.
